(** * Shallow embedding of udp.cpp (stop-and-wait and sliding-window ARQ)

    The four protocol functions of [udp.cpp] and the shared [ackAdvance]
    helper, modelled over [Z].  C [int] arithmetic is written with [Z.rem]
    and [Z.quot] (C truncates toward zero); the socket and the timer are
    the environment, so every received value, poll result and timer lap is
    an input of the model, and every [sendTo]/[ackTo]/[timeout.start()] is
    an output event.  Undefined behaviour (out-of-bounds array access,
    reading an uninitialised slot, signed overflow) ends a run with
    [Fail]. *)

From Stdlib Require Import ZArith List Bool Lia.
Import ListNotations.
Open Scope Z_scope.

(** ** Common definitions *)

(** [static const long MAX_TIME = 1500;] *)
Definition MAX_TIME : Z := 1500.

(** Range of a 32-bit [int]. *)
Definition INT_MIN : Z := - 2 ^ 31.
Definition INT_MAX : Z := 2 ^ 31 - 1.
Definition in_int (z : Z) : bool := (INT_MIN <=? z) && (z <=? INT_MAX).

(** Ways a run of the C code leaves defined behaviour. *)
Inductive err :=
| OutOfBounds (idx : Z)     (* array index outside the array *)
| Uninitialized (idx : Z)   (* read of a never-written array element *)
| Overflow                  (* signed int overflow *)
| Diverge.                  (* loop did not finish within its bound *)

Inductive result (A : Type) :=
| Ok (a : A)
| Fail (e : err).
Arguments Ok {A} a.
Arguments Fail {A} e.

Definition bind {A B} (m : result A) (k : A -> result B) : result B :=
  match m with
  | Ok a => k a
  | Fail e => Fail e
  end.

Notation "'let*' x := m 'in' k" := (bind m (fun x => k))
  (at level 200, x name, m at level 100, k at level 200).

(** Pointer argument given to [sendTo]: the message array (whose first int
    is [seq0]) or an [int] value converted to [char*]. *)
Inductive src :=
| Msg (seq0 : Z)
| FromInt (v : Z).

(** ** Stop-and-wait: [clientStopWait] and [serverReliable] *)
Module StopWait.

(** Output events of [clientStopWait]. *)
Inductive ev :=
| ESend (seq0 : Z)   (* sock.sendTo(message, ...) with message[0] = seq0 *)
| EStart.            (* timeout.start() *)

(** Environment of one pass through the [do] body: the timer readings
    [laps] seen while [sock.pollRecvFrom() < 1], then the int read by
    [sock.recvFrom((char* )&seqNum, sizeof(int))]. *)
Record round := mkRound { laps : list Z; ack : Z }.

(** [while(sock.pollRecvFrom() < 1) { if (timeout.lap() > MAX_TIME) {
    resend; ++retrans; timeout.start(); } }] *)
Fixpoint wait_reply (bit retrans : Z) (ls : list Z) : list ev * Z :=
  match ls with
  | [] => ([], retrans)
  | t :: ls' =>
      if t >? MAX_TIME then
        let '(evs, r) := wait_reply bit (retrans + 1) ls' in
        (ESend bit :: EStart :: evs, r)
      else wait_reply bit retrans ls'
  end.

(** One pass of the [do] body: send, start the timer, wait, receive,
    [retrans += seqNum ^ message[0]]. *)
Definition sw_body (bit retrans : Z) (r : round) : list ev * Z :=
  let '(evs, retrans1) := wait_reply bit retrans (laps r) in
  (ESend bit :: EStart :: evs, retrans1 + Z.lxor (ack r) bit).

(** [do { ... } while(seqNum != message[0]);] for one message.  [None]:
    the environment ran out before a matching acknowledgment. *)
Fixpoint msg_loop (bit retrans : Z) (rs : list round)
  : option (list ev * Z * list round) :=
  match rs with
  | [] => None
  | r :: rs' =>
      let '(evs, retrans1) := sw_body bit retrans r in
      if negb (ack r =? bit) then
        match msg_loop bit retrans1 rs' with
        | Some (evs', retrans2, rest) => Some (evs ++ evs', retrans2, rest)
        | None => None
        end
      else Some (evs, retrans1, rs')
  end.

(** [message[0] = msgNum & 1;] *)
Definition msg_bit (msgNum : Z) : Z := Z.land msgNum 1.

(** [for (int msgNum = 0; msgNum < max; ++msgNum) ...]; returns the
    events and [retrans]. *)
Fixpoint client_from (msgNum : Z) (k : nat) (retrans : Z) (rs : list round)
  : option (list ev * Z) :=
  match k with
  | O => Some ([], retrans)
  | S k' =>
      match msg_loop (msg_bit msgNum) retrans rs with
      | Some (evs, retrans1, rest) =>
          match client_from (msgNum + 1) k' retrans1 rest with
          | Some (evs', r) => Some (evs ++ evs', r)
          | None => None
          end
      | None => None
      end
  end.

Definition clientStopWait (max : Z) (rs : list round) : option (list ev * Z) :=
  client_from 0 (Z.to_nat max) 0 rs.

(** The loop guard [message[0] != msgToAck & 1] of [serverReliable]:
    [!=] binds tighter than [&], so it is [(message[0] != msgToAck) & 1],
    where [!=] yields the int 0 or 1. *)
Definition ne_int (a b : Z) : Z := if a =? b then 0 else 1.
Definition reliable_guard (received msgToAck : Z) : bool :=
  negb (Z.land (ne_int received msgToAck) 1 =? 0).

(** [serverReliable]: the frames the blocking [recvFrom] delivers, in
    order; returns the acknowledgments sent by [ackTo] and the value of
    [msgToAck] when the frames run out or the loop ends. *)
Fixpoint server_from (max msgToAck : Z) (frames : list Z) : list Z * Z :=
  if msgToAck <? max then
    match frames with
    | [] => ([], msgToAck)
    | f :: fs =>
        let next := if reliable_guard f msgToAck then msgToAck else msgToAck + 1 in
        let '(acks, m) := server_from max next fs in
        (f :: acks, m)
    end
  else ([], msgToAck).

Definition serverReliable (max : Z) (frames : list Z) : list Z * Z :=
  server_from max 0 frames.

End StopWait.

(** ** [ackAdvance] *)

(** [poll]: [None] when [sock.pollRecvFrom() > 0] fails, [Some recAckNum]
    with the int then read by [recvFrom]. *)
Definition ackAdvance (poll : option Z) (lastSeqRec windowSize : Z) : Z :=
  let seqRange := windowSize * 2 + 1 in
  match poll with
  | Some recAckNum =>
      if Z.rem (recAckNum - (lastSeqRec + 1) + seqRange) seqRange <? windowSize
      then Z.rem (recAckNum - lastSeqRec + seqRange) seqRange
      else 0
  | None => 0
  end.

(** ** [clientSlidingWindow] *)
Module Client.

Inductive ev :=
| ESend (s : src)   (* sock.sendTo(s, sizeof(message)) *)
| EStart.           (* timeout.start() *)

Inductive cpc := CWait | CDone.

Record cli := mkCli {
  c_pc : cpc;                (* CWait: inside iteration msgNum of the for loop *)
  c_retrans : Z;
  c_lastAckRec : Z;
  c_lastFrameSent : Z;
  c_buf : Z -> option Z;     (* int buffer[(windowSize + 1) * max]; None: unwritten *)
  c_msgNum : Z
}.

(** One environment reading per step: the value returned by
    [timeout.lap()] (used inside the full-window wait loop) and the
    poll/receive result seen by the [ackAdvance] call of the step. *)
Record input := mkInput { in_lap : Z; in_poll : option Z }.

Section WithParams.
Variables (windowSize max : Z).
(** [message[1]]: the caller's second int, copied along with
    [message[0]], since [sizeof(message) / sizeof(int)] is
    [sizeof(int* ) / sizeof(int) = 2] on an LP64 target. *)
Variable msg1 : Z.

Definition buf_size : Z := (windowSize + 1) * max.
Definition seqRange : Z := windowSize * 2 + 1.

Definition rd (b : Z -> option Z) (i : Z) : result Z :=
  if (0 <=? i) && (i <? buf_size) then
    match b i with
    | Some v => Ok v
    | None => Fail (Uninitialized i)
    end
  else Fail (OutOfBounds i).

Definition wr (b : Z -> option Z) (i v : Z) : result (Z -> option Z) :=
  if (0 <=? i) && (i <? buf_size) then
    Ok (fun j => if j =? i then Some v else b j)
  else Fail (OutOfBounds i).

(** [lastAckRec == (lastFrameSent + 1) % (windowSize + 1)] *)
Definition full (st : cli) : bool :=
  c_lastAckRec st =? Z.rem (c_lastFrameSent st + 1) (windowSize + 1).

(** [(lastFrameSent - lastAckRec + windowSize + 1) % (windowSize + 1)] *)
Definition outstanding (st : cli) : Z :=
  Z.rem (c_lastFrameSent st - c_lastAckRec st + windowSize + 1) (windowSize + 1).

(** [for (int i = 1; i <= count; ++i) { sock.sendTo((char* )buffer[((lastAckRec
    + i) % (windowSize + 1)) * max], sizeof(message)); ++retrans; }]:
    [k] iterations left, from [i]. *)
Fixpoint resend (b : Z -> option Z) (lastAckRec i : Z) (k : nat) (retrans : Z)
  : result (list ev * Z) :=
  match k with
  | O => Ok ([], retrans)
  | S k' =>
      let* v := rd b (Z.rem (lastAckRec + i) (windowSize + 1) * max) in
      let* p := resend b lastAckRec (i + 1) k' (retrans + 1) in
      let '(evs, r) := p in
      Ok (ESend (FromInt v) :: evs, r)
  end.

(** One iteration of [while(lastAckRec == (lastFrameSent + 1) % ...)]. *)
Definition wait_step (st : cli) (lap : Z) (poll : option Z) : result (cli * list ev) :=
  let lar := c_lastAckRec st in
  let* p :=
    (if lap >? MAX_TIME then
       let cnt := outstanding st in
       let* q := resend (c_buf st) lar 1 (Z.to_nat cnt) (c_retrans st) in
       let '(evs, r) := q in
       Ok (evs ++ [EStart], r)
     else Ok ([], c_retrans st)) in
  let '(evs, retrans1) := p in
  let* l := rd (c_buf st) ((lar + 1) * max) in
  let lar' := Z.rem (lar + ackAdvance poll l windowSize) (windowSize + 1) in
  Ok (mkCli CWait retrans1 lar' (c_lastFrameSent st) (c_buf st) (c_msgNum st), evs).

(** The rest of the for-loop body once the window is not full: send,
    advance [lastFrameSent], copy the message, call [ackAdvance],
    [++msgNum] and, if the loop continues, [timeout.start()]. *)
Definition send_step (st : cli) (poll : option Z) : result (cli * list ev) :=
  let seq := Z.rem (c_msgNum st) seqRange in
  let lfs' := Z.rem (c_lastFrameSent st + 1) (windowSize + 1) in
  let* b1 := wr (c_buf st) (lfs' * max + 0) seq in
  let* b2 := wr b1 (lfs' * max + 1) msg1 in
  let lar := c_lastAckRec st in
  let* l := rd b2 (Z.rem (lar + 1) (windowSize + 1) * max) in
  let lar' := Z.rem (lar + ackAdvance poll l windowSize) (windowSize + 1) in
  let n' := c_msgNum st + 1 in
  Ok (mkCli (if n' <? max then CWait else CDone) (c_retrans st) lar' lfs' b2 n',
      ESend (Msg seq) :: (if n' <? max then [EStart] else [])).

Definition cstep (st : cli) (i : input) : result (cli * list ev) :=
  match c_pc st with
  | CDone => Ok (st, [])
  | CWait => if full st then wait_step st (in_lap i) (in_poll i)
             else send_step st (in_poll i)
  end.

Definition cinit : cli :=
  mkCli (if 0 <? max then CWait else CDone) 0 0 0 (fun _ => None) 0.

(** Runs [cstep] on the inputs; events in order of emission. *)
Fixpoint crun (st : cli) (inps : list input) : result (cli * list ev) :=
  match inps with
  | [] => Ok (st, [])
  | i :: is =>
      let* p := cstep st i in
      let '(st', evs) := p in
      let* q := crun st' is in
      let '(st'', evs') := q in
      Ok (st'', evs ++ evs')
  end.

End WithParams.
End Client.

(** ** [serverEarlyRetrans] *)
Module Server.

(** Events, recorded newest first: [SStore k] is [buffer[k] = true] for
    an accepted frame, [SAdv k] is [lastAckSent] moving onto [k], and
    [SAck a] is [sock.ackTo] with [message[0] = a]. *)
Inductive sev :=
| SStore (k : Z)
| SAdv (k : Z)
| SAck (a : Z).

Record srv := mkSrv {
  s_buf : Z -> bool;          (* bool buffer[seqRange] *)
  s_lastAckSent : Z;
  s_largestAccFrame : Z;
  s_msgToAck : Z
}.

Section WithParams.
Variables (windowSize max : Z).

Definition seqRange : Z := windowSize * 2 + 1.

Definition srd (b : Z -> bool) (i : Z) : result bool :=
  if (0 <=? i) && (i <? seqRange) then Ok (b i) else Fail (OutOfBounds i).

Definition upd (b : Z -> bool) (i : Z) (v : bool) : Z -> bool :=
  fun j => if j =? i then v else b j.

Definition swr (b : Z -> bool) (i : Z) (v : bool) : result (Z -> bool) :=
  if (0 <=? i) && (i <? seqRange) then Ok (upd b i v)
  else Fail (OutOfBounds i).

(** [offset = windowSize - (seqRange + largestAccFrame - message[0]) % seqRange;]
    [None]: the subtraction overflows an int. *)
Definition offset_of (largestAccFrame seq : Z) : option Z :=
  let t := seqRange + largestAccFrame - seq in
  if in_int t then Some (windowSize - Z.rem t seqRange) else None.

(** [while(buffer[(lastAckSent + 1) % seqRange] == true) { buffer[lastAckSent]
    = false; lastAckSent = (lastAckSent + 1) % seqRange; largestAccFrame =
    (largestAccFrame + 1) % seqRange; }], with at most [fuel] guard
    evaluations. *)
Fixpoint fold (fuel : nat) (b : Z -> bool) (las laf : Z) (tr : list sev)
  : result ((Z -> bool) * Z * Z * list sev) :=
  match fuel with
  | O => Fail Diverge
  | S f =>
      let* x := srd b (Z.rem (las + 1) seqRange) in
      if x then
        let* b' := swr b las false in
        fold f b' (Z.rem (las + 1) seqRange) (Z.rem (laf + 1) seqRange)
             (SAdv (Z.rem (las + 1) seqRange) :: tr)
      else Ok (b, las, laf, tr)
  end.

Definition fold_fuel : nat := S (Z.to_nat seqRange).

(** One pass of the [do] body for a received [message[0] = seq]: compute
    the offset, store the frame if [offset > 0], fold, acknowledge.  The
    [do ... while(offset <= 0)] ends exactly when [offset > 0], and then
    the for loop's [++msgToAck] runs. *)
Definition receive (st : srv) (seq : Z) (tr : list sev) : result (srv * list sev) :=
  match offset_of (s_largestAccFrame st) seq with
  | None => Fail Overflow
  | Some offset =>
      let* p :=
        (if 0 <? offset then
           let* b1 := swr (s_buf st) seq true in Ok (b1, SStore seq :: tr)
         else Ok (s_buf st, tr)) in
      let '(b1, tr1) := p in
      let* q := fold fold_fuel b1 (s_lastAckSent st) (s_largestAccFrame st) tr1 in
      let '(b2, las2, laf2, tr2) := q in
      let ack := Z.rem (las2 + 1) seqRange in
      Ok (mkSrv b2 las2 laf2
            (if 0 <? offset then s_msgToAck st + 1 else s_msgToAck st),
          SAck ack :: tr2)
  end.

(** Initial state: [largestAccFrame = windowSize - 1], [lastAckSent =
    seqRange - 1], every [buffer[i] = false]. *)
Definition sinit : srv :=
  mkSrv (fun _ => false) (seqRange - 1) (windowSize - 1) 0.

(** The for loop over [msgToAck < max] fed with the received frames. *)
Fixpoint srun (st : srv) (frames : list Z) (tr : list sev) : result (srv * list sev) :=
  match frames with
  | [] => Ok (st, tr)
  | f :: fs =>
      if s_msgToAck st <? max then
        let* p := receive st f tr in
        let '(st', tr') := p in
        srun st' fs tr'
      else Ok (st, tr)
  end.

Definition reachable (st : srv) (tr : list sev) : Prop :=
  exists frames, srun sinit frames [] = Ok (st, tr).

(** Trace predicates (newest event first). *)
Fixpoint lastL (tr : list sev) : Z :=
  match tr with
  | [] => seqRange - 1
  | SAdv k :: _ => k
  | _ :: t => lastL t
  end.

(** [k] was stored since [lastAckSent] last moved onto [k]. *)
Fixpoint fresh (k : Z) (tr : list sev) : bool :=
  match tr with
  | [] => false
  | SStore j :: t => (j =? k) || fresh k t
  | SAdv j :: t => if j =? k then false else fresh k t
  | SAck _ :: t => fresh k t
  end.

(** Every move of [lastAckSent] goes one step forward in the ring, onto
    a sequence number stored since the previous move onto it. *)
Fixpoint adv_ok (tr : list sev) : bool :=
  match tr with
  | [] => true
  | SAdv k :: t => (k =? Z.rem (lastL t + 1) seqRange) && fresh k t && adv_ok t
  | _ :: t => adv_ok t
  end.

End WithParams.
End Server.

(** ** Concrete environments used below *)

(** [windowSize = 1], [max = 3]: the first frame is acknowledged at once
    (ack 1), nothing arrives afterwards. *)
Definition c9_inputs : list Client.input :=
  [Client.mkInput 0 (Some 1); Client.mkInput 0 None; Client.mkInput 0 None].

(** [windowSize = 1], [max = 2]: no acknowledgment; on the second step the
    window is full and the timer reads 1501. *)
Definition c3_inputs : list Client.input :=
  [Client.mkInput 0 None; Client.mkInput 1501 None].

(** The guard the spec asks for: [receivedBit != (n mod 2)]. *)
Definition expected_guard (received msgToAck : Z) : bool :=
  negb (received =? msgToAck mod 2).

(** * Properties *)

Example ackAdvance_ex1 : ackAdvance (Some 1) 0 2 = 1.
Proof. reflexivity. Qed.
Example ackAdvance_ex2 : ackAdvance (Some 3) 0 2 = 0.
Proof. reflexivity. Qed.

Lemma reliable_guard_eq : forall r n,
  StopWait.reliable_guard r n = negb (r =? n).
Proof.
  intros r n. unfold StopWait.reliable_guard, StopWait.ne_int.
  destruct (r =? n); reflexivity.
Qed.

(** C1 (code bug).  The guard [message[0] != msgToAck & 1] compares the
    received bit with [msgToAck] itself, not with [msgToAck mod 2]: with
    [max = 3] and frames 0, 1, 0 the receiver stays at expected index 2
    (the spec's guard would let frame 0 through there), and no frame of bit
    0 or 1 ever advances it again. *)
Theorem serverReliable_guard_precedence :
  StopWait.reliable_guard 0 2 = true /\ expected_guard 0 2 = false /\
  StopWait.serverReliable 3 [0; 1; 0] = ([0; 1; 0], 2) /\
  (forall fs, Forall (fun f => f = 0 \/ f = 1) fs ->
     snd (StopWait.server_from 3 2 fs) = 2).
Proof.
  split; [reflexivity|]. split; [reflexivity|]. split; [reflexivity|].
  induction fs as [|f fs IH]; intros Hf; [reflexivity|].
  inversion Hf as [|? ? Hb Hfs]; subst.
  simpl. rewrite reliable_guard_eq.
  destruct Hb as [-> | ->]; simpl;
    destruct (StopWait.server_from 3 2 fs) as [acks m] eqn:E; simpl in *;
    apply IH; assumption.
Qed.

(** C2 (code bug).  With [windowSize = 2], [lastSeqRec = 0] and a received
    acknowledgment [-9], [ackAdvance] accepts it (the C remainder of [-5] by
    5 is 0) and returns [-4], outside the documented [0 <= return <=
    windowSize]; mathematically [-9 mod 5 = 1] lies 0 positions ahead of
    [lastSeqRec + 1] and [(-9 - 0) mod 5 = 1]. *)
Theorem ackAdvance_negative_ack :
  ackAdvance (Some (-9)) 0 2 = -4 /\ (-9 - (0 + 1)) mod 5 = 0 /\ (-9 - 0) mod 5 = 1.
Proof. repeat split; reflexivity. Qed.

(** For non-negative acknowledgments (every sequence number of the ring is
    one) [ackAdvance] computes the modular distance and stays in
    [0, windowSize]. *)
Lemma ackAdvance_nonneg_ack : forall w l r,
  0 < w -> 0 <= l < 2 * w + 1 -> 0 <= r ->
  ackAdvance (Some r) l w =
    (if (r - (l + 1)) mod (2 * w + 1) <? w then (r - l) mod (2 * w + 1) else 0) /\
  0 <= ackAdvance (Some r) l w <= w.
Proof.
  intros w l r Hw Hl Hr. unfold ackAdvance.
  replace (w * 2 + 1) with (2 * w + 1) by ring.
  rewrite !Z.rem_mod_nonneg by lia.
  replace (r - (l + 1) + (2 * w + 1)) with ((r - (l + 1)) + 1 * (2 * w + 1)) by ring.
  replace (r - l + (2 * w + 1)) with ((r - l) + 1 * (2 * w + 1)) by ring.
  rewrite !Z_mod_plus_full.
  split; [reflexivity|].
  destruct ((r - (l + 1)) mod (2 * w + 1) <? w) eqn:E; [|lia].
  apply Z.ltb_lt in E.
  replace (r - l) with ((r - (l + 1)) + 1) by ring.
  rewrite Zplus_mod. rewrite (Z.mod_small 1) by lia.
  pose proof (Z.mod_pos_bound (r - (l + 1)) (2 * w + 1)) as B.
  rewrite Z.mod_small; lia.
Qed.

(** C3 (code bug).  On a timeout with a full window the resend loop passes
    [(char* )buffer[...]], the stored sequence number converted to a
    pointer, to [sendTo], not the stored frame: with [windowSize = 1],
    [max = 2] and no acknowledgment, the retransmission of frame 0 sends
    from address 0.  The count is as the claim says: one retransmission,
    [retrans = 1], then [timeout.start()]. *)
Theorem clientSlidingWindow_resend_cast : forall msg1,
  match Client.crun 1 2 msg1 (Client.cinit 2) c3_inputs with
  | Ok (st, evs) =>
      evs = [Client.ESend (Msg 0); Client.EStart; Client.ESend (FromInt 0); Client.EStart] /\
  Client.c_retrans st = 1 /\ Client.c_buf st (1 * 2) = Some 0
  | Fail _ => False
  end.
Proof. intros msg1. vm_compute. repeat split. Qed.

(** C9 (code bug).  In the full-window loop [ackAdvance] is passed
    [buffer[(lastAckRec + 1) * max]] without the [% (windowSize + 1)] of the
    call after the send: with [windowSize = 1], [max = 3], the first frame
    acknowledged at once and no later acknowledgment, [lastAckRec] is 1 =
    [windowSize] when the window fills and the read is at index 6, the
    array size. *)
Theorem clientSlidingWindow_wait_read_oob : forall msg1,
  Client.crun 1 3 msg1 (Client.cinit 3) c9_inputs = Fail (OutOfBounds 6) /\
  Client.buf_size 1 3 = 6.
Proof. intros msg1. split; reflexivity. Qed.

(** C10 (code bug).  A positive offset does not keep [seq] inside the ring:
    with [windowSize = 1] the first frame with sequence field 3 (never in
    [0, 3)) gets offset 1 and [buffer[3] = true] writes past the 3-entry
    array. *)
Theorem serverEarlyRetrans_offset_oob :
  Server.offset_of 1 (Server.s_largestAccFrame (Server.sinit 1)) 3 = Some 1 /\
  Server.seqRange 1 = 3 /\
  Server.srun 1 5 (Server.sinit 1) [3] [] = Fail (OutOfBounds 3).
Proof. repeat split; reflexivity. Qed.

Lemma msg_bit_mod : forall n, StopWait.msg_bit n = n mod 2.
Proof.
  intros n. unfold StopWait.msg_bit.
  change 1 with (Z.ones 1). rewrite Z.land_ones by lia. reflexivity.
Qed.

(** The per-message loop only ends on an acknowledgment equal to the bit;
    every round it skipped had a different acknowledgment. *)
Lemma msg_loop_ends : forall bit rs retrans evs r' rest,
  StopWait.msg_loop bit retrans rs = Some (evs, r', rest) ->
  exists pre r0, rs = pre ++ r0 :: rest /\ StopWait.ack r0 = bit /\
    Forall (fun x => StopWait.ack x <> bit) pre.
Proof.
  intros bit rs. induction rs as [|r rs IH]; intros retrans evs r' rest H;
    simpl in H; [discriminate|].
  destruct (StopWait.sw_body bit retrans r) as [e1 r1] eqn:Eb.
  destruct (StopWait.ack r =? bit) eqn:Ea; simpl in H.
  - inversion H; subst. exists [], r. apply Z.eqb_eq in Ea. simpl. auto.
  - destruct (StopWait.msg_loop bit r1 rs) as [[[e2 r2] rest2]|] eqn:El;
      [|discriminate].
    inversion H; subst.
    destruct (IH _ _ _ _ El) as (pre & r0 & -> & Hr0 & Hpre).
    exists (r :: pre), r0. split; [reflexivity|]. split; [assumption|].
    constructor; [apply Z.eqb_neq; assumption | assumption].
Qed.

(** C8.  Message [n] carries the bit [n mod 2]; every pass of the [do] body
    starts by sending that bit; the loop ends only on an acknowledgment
    equal to it; an acknowledgment bit differing from it adds exactly one to
    [retrans] (on top of the timeouts of that pass) and the loop runs the
    [do] body, which resends the frame, again. *)
Theorem clientStopWait_ack_bit : forall n retrans r rs,
  0 <= n -> (StopWait.ack r = 0 \/ StopWait.ack r = 1) ->
  let bit := StopWait.msg_bit n in
  bit = n mod 2 /\
  (forall retr r', exists evs, fst (StopWait.sw_body bit retr r') =
                               StopWait.ESend (n mod 2) :: evs) /\
  snd (StopWait.sw_body bit retrans r) =
    snd (StopWait.wait_reply bit retrans (StopWait.laps r)) +
    (if StopWait.ack r =? n mod 2 then 0 else 1) /\
  (StopWait.ack r = n mod 2 ->
     StopWait.msg_loop bit retrans (r :: rs) =
     Some (fst (StopWait.sw_body bit retrans r), snd (StopWait.sw_body bit retrans r), rs)) /\
  (StopWait.ack r <> n mod 2 ->
     StopWait.msg_loop bit retrans (r :: rs) =
     match StopWait.msg_loop bit (snd (StopWait.sw_body bit retrans r)) rs with
     | Some (evs', r2, rest) => Some (fst (StopWait.sw_body bit retrans r) ++ evs', r2, rest)
     | None => None
     end) /\
  (forall rs' evs r' rest, StopWait.msg_loop bit retrans rs' = Some (evs, r', rest) ->
     exists pre r0, rs' = pre ++ r0 :: rest /\ StopWait.ack r0 = n mod 2 /\
       Forall (fun x => StopWait.ack x <> n mod 2) pre).
Proof.
  intros n retrans r rs Hn Hack bit.
  assert (Hbit : bit = n mod 2) by apply msg_bit_mod.
  split; [exact Hbit|].
  split.
  { intros retr r'. unfold StopWait.sw_body.
    destruct (StopWait.wait_reply bit retr (StopWait.laps r')).
    eexists. simpl. rewrite Hbit. reflexivity. }
  split.
  { unfold StopWait.sw_body.
    destruct (StopWait.wait_reply bit retrans (StopWait.laps r)) as [e1 r1]. simpl.
    f_equal. rewrite Hbit.
    assert (Hb : n mod 2 = 0 \/ n mod 2 = 1) by (pose proof (Z.mod_pos_bound n 2); lia).
    destruct Hack as [-> | ->]; destruct Hb as [-> | ->]; reflexivity. }
  split.
  { intros Heq. simpl.
    destruct (StopWait.sw_body bit retrans r) as [e1 r1]. simpl.
    rewrite Hbit, Heq, Z.eqb_refl. reflexivity. }
  split.
  { intros Hne. simpl.
    destruct (StopWait.sw_body bit retrans r) as [e1 r1]. simpl.
    rewrite Hbit. apply Z.eqb_neq in Hne. rewrite Hne. simpl.
    rewrite <- Hbit. reflexivity. }
  intros rs' evs r' rest H. rewrite <- Hbit. eapply msg_loop_ends; eassumption.
Qed.

Lemma clientStopWait_ack_bit_witness :
  (0 <= 3 /\ (StopWait.ack (StopWait.mkRound [2000] 0) = 0 \/
              StopWait.ack (StopWait.mkRound [2000] 0) = 1)) /\
  StopWait.msg_bit 3 = 3 mod 2.
Proof.
  split; [split; [lia | left; reflexivity]|].
  exact (proj1 (clientStopWait_ack_bit 3 0 (StopWait.mkRound [2000] 0) []
                  ltac:(lia) (or_introl eq_refl))).
Defined.

(** ** The fold loop of [serverEarlyRetrans] *)

(** Sequence numbers of the ring, [0 .. seqRange - 1]. *)
Definition ring (w : Z) : list Z :=
  map Z.of_nat (List.seq 0 (Z.to_nat (Server.seqRange w))).

(** Occupied entries of the map, plus one when the entry at [lastAckSent]
    is free: each iteration of the loop lowers it by one. *)
Definition fold_measure (w : Z) (b : Z -> bool) (las : Z) : nat :=
  (length (filter b (ring w)) + (if b las then 0 else 1))%nat.

Lemma in_ring : forall w k, In k (ring w) <-> 0 <= k < Server.seqRange w.
Proof.
  intros w k. unfold ring. rewrite in_map_iff. split.
  - intros (x & <- & Hx). apply in_seq in Hx. lia.
  - intros Hk. exists (Z.to_nat k). split; [lia|]. apply in_seq. lia.
Qed.

Lemma ring_NoDup : forall w, NoDup (ring w).
Proof.
  intros w. unfold ring. apply NoDup_map_NoDup_ForallPairs; [|apply seq_NoDup].
  intros x y _ _ H. lia.
Qed.

Lemma ring_length : forall w, length (ring w) = Z.to_nat (Server.seqRange w).
Proof. intros w. unfold ring. rewrite length_map, length_seq. reflexivity. Qed.

Lemma filter_upd_false : forall b i l, NoDup l -> In i l ->
  (length (filter (Server.upd b i false) l) + (if b i then 1 else 0))%nat =
  length (filter b l).
Proof.
  intros b i l. induction l as [|x l IH]; intros Hnd Hin; [destruct Hin|].
  inversion Hnd as [|? ? Hx Hnd']; subst.
  simpl. unfold Server.upd at 1.
  destruct (x =? i) eqn:E.
  - apply Z.eqb_eq in E; subst.
    assert (Heq : filter (Server.upd b i false) l = filter b l).
    { apply filter_ext_in. intros a Ha. unfold Server.upd.
      destruct (a =? i) eqn:Ea; [apply Z.eqb_eq in Ea; subst; contradiction|reflexivity]. }
    rewrite Heq. destruct (b i); simpl; lia.
  - destruct Hin as [Hxi | Hin]; [subst; rewrite Z.eqb_refl in E; discriminate|].
    specialize (IH Hnd' Hin). destruct (b x); simpl; lia.
Qed.

Lemma filter_length_free : forall (b : Z -> bool) i l, In i l -> b i = false ->
  (length (filter b l) + 1 <= length l)%nat.
Proof.
  intros b i l. induction l as [|x l IH]; intros Hin Hb; [destruct Hin|].
  simpl. destruct Hin as [-> | Hin].
  - rewrite Hb. pose proof (filter_length_le b l). lia.
  - specialize (IH Hin Hb). destruct (b x); simpl; lia.
Qed.

Lemma fold_measure_bound : forall w b las, 0 <= las < Server.seqRange w ->
  (fold_measure w b las <= Z.to_nat (Server.seqRange w))%nat.
Proof.
  intros w b las Hl. unfold fold_measure. rewrite <- ring_length.
  destruct (b las) eqn:E.
  - pose proof (filter_length_le b (ring w)). lia.
  - pose proof (filter_length_free b las (ring w) (proj2 (in_ring w las) Hl) E). lia.
Qed.

Lemma rem_succ_bound : forall w las, 0 < w -> 0 <= las < Server.seqRange w ->
  0 <= Z.rem (las + 1) (Server.seqRange w) < Server.seqRange w.
Proof.
  intros w las Hw Hl. unfold Server.seqRange in *.
  rewrite Z.rem_mod_nonneg by lia. apply Z.mod_pos_bound. lia.
Qed.

Lemma rem_succ_ne : forall w las, 0 < w -> 0 <= las < Server.seqRange w ->
  Z.rem (las + 1) (Server.seqRange w) <> las.
Proof.
  intros w las Hw Hl. unfold Server.seqRange in *.
  rewrite Z.rem_mod_nonneg by lia.
  destruct (Z.eq_dec (las + 1) (w * 2 + 1)) as [E|E].
  - rewrite E, Z_mod_same_full. lia.
  - rewrite Z.mod_small by lia. lia.
Qed.

Lemma fold_measure_step : forall w b las, 0 < w -> 0 <= las < Server.seqRange w ->
  b (Z.rem (las + 1) (Server.seqRange w)) = true ->
  (fold_measure w (Server.upd b las false) (Z.rem (las + 1) (Server.seqRange w)) + 1 =
   fold_measure w b las)%nat.
Proof.
  intros w b las Hw Hl Hb. unfold fold_measure.
  pose proof (filter_upd_false b las (ring w) (ring_NoDup w) (proj2 (in_ring w las) Hl)) as H.
  unfold Server.upd at 2.
  rewrite (proj2 (Z.eqb_neq _ _) (rem_succ_ne w las Hw Hl)), Hb.
  destruct (b las); lia.
Qed.

Lemma srd_in : forall w b i, 0 <= i < Server.seqRange w -> Server.srd w b i = Ok (b i).
Proof.
  intros w b i Hi. unfold Server.srd.
  replace ((0 <=? i) && (i <? Server.seqRange w)) with true by (symmetry; apply andb_true_iff; lia).
  reflexivity.
Qed.

Lemma swr_in : forall w b i v, 0 <= i < Server.seqRange w ->
  Server.swr w b i v = Ok (Server.upd b i v).
Proof.
  intros w b i v Hi. unfold Server.swr.
  replace ((0 <=? i) && (i <? Server.seqRange w)) with true by (symmetry; apply andb_true_iff; lia).
  reflexivity.
Qed.

(** The fold loop always ends within its bound, on a state whose next entry
    is free, and keeps every property that one iteration keeps. *)
Lemma fold_inv : forall w (P : (Z -> bool) -> Z -> Z -> list Server.sev -> Prop),
  0 < w ->
  (forall b las laf tr, P b las laf tr -> 0 <= las < Server.seqRange w ->
     b (Z.rem (las + 1) (Server.seqRange w)) = true ->
     P (Server.upd b las false) (Z.rem (las + 1) (Server.seqRange w))
       (Z.rem (laf + 1) (Server.seqRange w))
       (Server.SAdv (Z.rem (las + 1) (Server.seqRange w)) :: tr)) ->
  forall fuel b las laf tr,
    0 <= las < Server.seqRange w -> (fold_measure w b las < fuel)%nat ->
    P b las laf tr ->
    exists b' las' laf' tr',
      Server.fold w fuel b las laf tr = Ok (b', las', laf', tr') /\
      P b' las' laf' tr' /\ b' (Z.rem (las' + 1) (Server.seqRange w)) = false /\
      0 <= las' < Server.seqRange w.
Proof.
  intros w P Hw Hstep fuel. induction fuel as [|f IH]; intros b las laf tr Hl Hm HP;
    [lia|].
  simpl. rewrite srd_in by (apply rem_succ_bound; assumption). simpl.
  destruct (b (Z.rem (las + 1) (Server.seqRange w))) eqn:Eb.
  - rewrite swr_in by assumption. simpl.
    apply IH.
    + apply rem_succ_bound; assumption.
    + pose proof (fold_measure_step w b las Hw Hl Eb). lia.
    + apply Hstep; assumption.
  - exists b, las, laf, tr. auto.
Qed.

(** ** Invariant of [serverEarlyRetrans] *)

Definition no_ack (e : Server.sev) : Prop :=
  match e with Server.SAck _ => False | _ => True end.

(** Properties of the map, the two cursors and the trace that one fold
    iteration keeps; [tr0] is the trace before the current receive. *)
Definition fold_pred (w : Z) (tr0 : list Server.sev) (b : Z -> bool) (las laf : Z)
    (tr : list Server.sev) : Prop :=
  0 <= laf < Server.seqRange w /\ Server.lastL w tr = las /\
  Server.adv_ok w tr = true /\
  (forall k, b k = true -> k <> las -> Server.fresh k tr = true) /\
  exists new, tr = new ++ tr0 /\ Forall no_ack new.

Definition SInv (w : Z) (st : Server.srv) (tr : list Server.sev) : Prop :=
  0 <= Server.s_lastAckSent st < Server.seqRange w /\
  0 <= Server.s_largestAccFrame st < Server.seqRange w /\
  Server.s_buf st (Z.rem (Server.s_lastAckSent st + 1) (Server.seqRange w)) = false /\
  Server.lastL w tr = Server.s_lastAckSent st /\
  Server.adv_ok w tr = true /\
  (forall k, Server.s_buf st k = true -> k <> Server.s_lastAckSent st ->
     Server.fresh k tr = true).

Lemma fold_pred_step : forall w tr0, 0 < w ->
  forall b las laf tr, fold_pred w tr0 b las laf tr -> 0 <= las < Server.seqRange w ->
  b (Z.rem (las + 1) (Server.seqRange w)) = true ->
  fold_pred w tr0 (Server.upd b las false) (Z.rem (las + 1) (Server.seqRange w))
    (Z.rem (laf + 1) (Server.seqRange w))
    (Server.SAdv (Z.rem (las + 1) (Server.seqRange w)) :: tr).
Proof.
  intros w tr0 Hw b las laf tr (Hlaf & Hlast & Hadv & Hfr & new & Htr & Hna) Hl Hb.
  pose proof (rem_succ_ne w las Hw Hl) as Hne.
  split; [apply rem_succ_bound; assumption|].
  split; [reflexivity|].
  split.
  { simpl. rewrite Hlast, Z.eqb_refl, Hadv, (Hfr _ Hb Hne). reflexivity. }
  split.
  { intros k Hk Hkn. simpl.
    rewrite (proj2 (Z.eqb_neq _ _) (not_eq_sym Hkn)).
    unfold Server.upd in Hk. destruct (k =? las) eqn:E; [discriminate|].
    apply Hfr; [assumption|]. apply Z.eqb_neq. assumption. }
  exists (Server.SAdv (Z.rem (las + 1) (Server.seqRange w)) :: new).
  split; [rewrite Htr; reflexivity|]. constructor; [exact I|assumption].
Qed.

Lemma fold_stop : forall w fuel b las laf tr,
  0 <= Z.rem (las + 1) (Server.seqRange w) < Server.seqRange w ->
  b (Z.rem (las + 1) (Server.seqRange w)) = false ->
  Server.fold w (S fuel) b las laf tr = Ok (b, las, laf, tr).
Proof.
  intros w fuel b las laf tr Hr Hb. simpl. rewrite srd_in by assumption. simpl.
  rewrite Hb. reflexivity.
Qed.

Lemma fold_fuel_enough : forall w b las, 0 <= las < Server.seqRange w ->
  (fold_measure w b las < Server.fold_fuel w)%nat.
Proof.
  intros w b las Hl. unfold Server.fold_fuel.
  pose proof (fold_measure_bound w b las Hl). lia.
Qed.

(** What one receive does from an invariant state: the offset is computed,
    the frame stored when the offset is positive and in the ring, the fold
    runs to a free next entry, and exactly one acknowledgment, the last
    event, carries [(lastAckSent + 1) % seqRange] of the folded state. *)
Lemma receive_spec : forall w st tr seq o, 0 < w -> SInv w st tr ->
  Server.offset_of w (Server.s_largestAccFrame st) seq = Some o ->
  (0 < o -> 0 <= seq < Server.seqRange w) ->
  exists b2 las2 laf2 tr2,
    Server.receive w st seq tr =
      Ok (Server.mkSrv b2 las2 laf2
            (if 0 <? o then Server.s_msgToAck st + 1 else Server.s_msgToAck st),
          Server.SAck (Z.rem (las2 + 1) (Server.seqRange w)) :: tr2) /\
    SInv w (Server.mkSrv b2 las2 laf2
              (if 0 <? o then Server.s_msgToAck st + 1 else Server.s_msgToAck st))
         (Server.SAck (Z.rem (las2 + 1) (Server.seqRange w)) :: tr2) /\
    (exists new, tr2 = new ++ tr /\ Forall no_ack new) /\
    (o <= 0 -> b2 = Server.s_buf st /\ las2 = Server.s_lastAckSent st /\
               laf2 = Server.s_largestAccFrame st /\ tr2 = tr).
Proof.
  intros w [b las laf m] tr seq o Hw Hinv Hoff Hseq.
  destruct Hinv as (Hl & Hlaf & Hnext & Hlast & Hadv & Hfr). simpl in *.
  unfold Server.receive.
  remember (Server.fold_fuel w) as fu eqn:Efu.
  simpl. rewrite Hoff.
  destruct (0 <? o) eqn:Eo.
  - apply Z.ltb_lt in Eo. specialize (Hseq Eo).
    rewrite swr_in by assumption. simpl.
    assert (HP : fold_pred w tr (Server.upd b seq true) las laf (Server.SStore seq :: tr)).
    { split; [assumption|]. split; [simpl; assumption|]. split; [simpl; assumption|].
      split.
      - intros k Hk Hkn. simpl. unfold Server.upd in Hk.
        destruct (k =? seq) eqn:E.
        + apply Z.eqb_eq in E. subst. rewrite Z.eqb_refl. reflexivity.
        + rewrite (proj2 (Z.eqb_neq _ _) (fun H => proj1 (Z.eqb_neq _ _) E (eq_sym H))).
          simpl. apply Hfr; assumption.
      - exists [Server.SStore seq]. split; [reflexivity|]. repeat constructor. }
    destruct (fold_inv w (fold_pred w tr) Hw (fold_pred_step w tr Hw)
                fu _ las laf _ Hl ltac:(rewrite Efu; apply fold_fuel_enough; exact Hl) HP)
      as (b2 & las2 & laf2 & tr2 & Hf & HP2 & Hn2 & Hl2).
    rewrite Hf. simpl.
    destruct HP2 as (Hlaf2 & Hlast2 & Hadv2 & Hfr2 & new & Htr2 & Hna).
    exists b2, las2, laf2, tr2. split; [reflexivity|].
    split; [|split; [exists new; auto | intros; lia]].
    repeat split; simpl; try lia; try assumption.
  - assert (Ho : o <= 0) by (apply Z.ltb_ge; assumption).
    simpl. rewrite Efu. unfold Server.fold_fuel.
    rewrite fold_stop by (try apply rem_succ_bound; assumption). simpl.
    exists b, las, laf, tr. split; [reflexivity|].
    split; [repeat split; simpl; try lia; assumption|].
    split; [exists []; auto|]. auto.
Qed.

Lemma receive_inv : forall w st tr seq st' tr', 0 < w -> SInv w st tr ->
  Server.receive w st seq tr = Ok (st', tr') -> SInv w st' tr'.
Proof.
  intros w st tr seq st' tr' Hw Hinv H.
  destruct (Server.offset_of w (Server.s_largestAccFrame st) seq) as [o|] eqn:Hoff.
  - destruct (Z.ltb_spec 0 o) as [Ho|Ho];
      [destruct (Z.le_gt_cases 0 seq) as [H0|H0];
       [destruct (Z.lt_ge_cases seq (Server.seqRange w)) as [H1|H1]|]|].
    + destruct (receive_spec w st tr seq o Hw Hinv Hoff (fun _ => conj H0 H1))
        as (b2 & las2 & laf2 & tr2 & Hr & Hi & _). rewrite Hr in H.
      inversion H; subst. assumption.
    + unfold Server.receive in H. rewrite Hoff in H.
      rewrite (proj2 (Z.ltb_lt 0 o) Ho) in H. unfold Server.swr in H.
      replace ((0 <=? seq) && (seq <? Server.seqRange w)) with false in H
        by (symmetry; apply andb_false_iff; right; apply Z.ltb_ge; lia).
      discriminate.
    + unfold Server.receive in H. rewrite Hoff in H.
      rewrite (proj2 (Z.ltb_lt 0 o) Ho) in H. unfold Server.swr in H.
      replace ((0 <=? seq) && (seq <? Server.seqRange w)) with false in H
        by (symmetry; apply andb_false_iff; left; apply Z.leb_gt; lia).
      discriminate.
    + destruct (receive_spec w st tr seq o Hw Hinv Hoff (fun H' => ltac:(lia)))
        as (b2 & las2 & laf2 & tr2 & Hr & Hi & _). rewrite Hr in H.
      inversion H; subst. assumption.
  - unfold Server.receive in H. rewrite Hoff in H. discriminate.
Qed.

Lemma sinit_inv : forall w, 0 < w -> SInv w (Server.sinit w) [].
Proof.
  intros w Hw. unfold SInv, Server.sinit, Server.seqRange. simpl.
  repeat split; try lia; try discriminate.
Qed.

Lemma srun_inv : forall w max frames st tr st' tr', 0 < w -> SInv w st tr ->
  Server.srun w max st frames tr = Ok (st', tr') -> SInv w st' tr'.
Proof.
  intros w max frames. induction frames as [|f fs IH]; intros st tr st' tr' Hw Hi H;
    simpl in H.
  - inversion H; subst; assumption.
  - destruct (Server.s_msgToAck st <? max).
    + destruct (Server.receive w st f tr) as [[st1 tr1]|e] eqn:Er; simpl in H;
        [|discriminate].
      eapply IH; [exact Hw| |exact H]. eapply receive_inv; eassumption.
    + inversion H; subst; assumption.
Qed.

Lemma reachable_inv : forall w max st tr, 0 < w -> Server.reachable w max st tr ->
  SInv w st tr.
Proof.
  intros w max st tr Hw [frames H]. eapply srun_inv; [exact Hw|apply sinit_inv, Hw|exact H].
Qed.

Lemma seqRange_eq : forall w, Server.seqRange w = 2 * w + 1.
Proof. intros w. unfold Server.seqRange. ring. Qed.

(** C5.  Along every run of [serverEarlyRetrans], each move of
    [lastAckSent] is one step, to [(lastAckSent + 1) mod (2 * windowSize
    + 1)], onto a sequence number whose frame was stored in the occupancy
    map (so received, with a positive offset) after the previous move onto
    that number; an occupied entry other than [lastAckSent] is always such
    a number. *)
Theorem serverEarlyRetrans_no_gap : forall w max frames st tr, 0 < w ->
  Server.srun w max (Server.sinit w) frames [] = Ok (st, tr) ->
  Server.adv_ok w tr = true /\ Server.lastL w tr = Server.s_lastAckSent st /\
  (forall k, Server.s_buf st k = true -> k <> Server.s_lastAckSent st ->
     Server.fresh k tr = true).
Proof.
  intros w max frames st tr Hw H.
  destruct (srun_inv w max frames _ _ st tr Hw (sinit_inv w Hw) H)
    as (_ & _ & _ & Hlast & Hadv & Hfr).
  auto.
Qed.

Lemma serverEarlyRetrans_no_gap_witness :
  match Server.srun 2 5 (Server.sinit 2) [1; 0; 0; 2] [] with
  | Ok (st, tr) => Server.adv_ok 2 tr = true /\ Server.s_lastAckSent st = 2
  | Fail _ => False
  end.
Proof.
  destruct (Server.srun 2 5 (Server.sinit 2) [1; 0; 0; 2] []) as [[st tr]|e] eqn:E.
  - split.
    + exact (proj1 (serverEarlyRetrans_no_gap 2 5 [1; 0; 0; 2] st tr ltac:(lia) E)).
    + vm_compute in E. inversion E. reflexivity.
  - vm_compute in E. discriminate E.
Defined.

(** C6.  In every reachable state, a frame whose offset is [<= 0] leaves
    the occupancy map, [lastAckSent], [largestAccFrame] and [msgToAck]
    unchanged (so the [do] loop repeats and the frame is not counted), and
    the only event is the repeated acknowledgment [(lastAckSent + 1) mod
    (2 * windowSize + 1)]. *)
Theorem serverEarlyRetrans_discard : forall w max st tr seq o, 0 < w ->
  Server.reachable w max st tr ->
  Server.offset_of w (Server.s_largestAccFrame st) seq = Some o -> o <= 0 ->
  Server.receive w st seq tr =
    Ok (st, Server.SAck ((Server.s_lastAckSent st + 1) mod (2 * w + 1)) :: tr).
Proof.
  intros w max st tr seq o Hw Hr Hoff Ho.
  pose proof (reachable_inv w max st tr Hw Hr) as Hi.
  destruct (receive_spec w st tr seq o Hw Hi Hoff (fun H => ltac:(lia)))
    as (b2 & las2 & laf2 & tr2 & Hrec & _ & _ & Hsame).
  destruct (Hsame Ho) as (-> & -> & -> & ->).
  rewrite Hrec. destruct Hi as (Hl & _).
  replace (0 <? o) with false by (symmetry; apply Z.ltb_ge; lia).
  rewrite seqRange_eq in *. rewrite Z.rem_mod_nonneg by lia.
  destruct st; reflexivity.
Qed.

Lemma serverEarlyRetrans_discard_witness :
  match Server.srun 2 5 (Server.sinit 2) [0] [] with
  | Ok (st, tr) =>
      Server.offset_of 2 (Server.s_largestAccFrame st) 0 = Some 0 /\
      Server.receive 2 st 0 tr =
        Ok (st, Server.SAck ((Server.s_lastAckSent st + 1) mod (2 * 2 + 1)) :: tr)
  | Fail _ => False
  end.
Proof.
  destruct (Server.srun 2 5 (Server.sinit 2) [0] []) as [[st tr]|e] eqn:E.
  - assert (Hoff : Server.offset_of 2 (Server.s_largestAccFrame st) 0 = Some 0)
      by (vm_compute in E; inversion E; reflexivity).
    split; [exact Hoff|].
    exact (serverEarlyRetrans_discard 2 5 st tr 0 0 ltac:(lia)
             (ex_intro _ [0] E) Hoff ltac:(lia)).
  - vm_compute in E. discriminate E.
Defined.

(** C7.  In every reachable state, receiving any frame of the ring emits
    exactly one acknowledgment, the last event of the receive, equal to
    [(lastAckSent + 1) mod (2 * windowSize + 1)] for the [lastAckSent]
    after the fold, which has absorbed every contiguous occupied entry (the
    entry after it is free).  [4 * windowSize + 2 <= INT_MAX] keeps
    [seqRange + largestAccFrame - message[0]] an int. *)
Theorem serverEarlyRetrans_one_ack : forall w max st tr seq, 0 < w ->
  4 * w + 2 <= INT_MAX -> Server.reachable w max st tr -> 0 <= seq < 2 * w + 1 ->
  exists st' new,
    Server.receive w st seq tr =
      Ok (st', Server.SAck ((Server.s_lastAckSent st' + 1) mod (2 * w + 1)) :: new ++ tr) /\
    Forall no_ack new /\
    Server.s_buf st' ((Server.s_lastAckSent st' + 1) mod (2 * w + 1)) = false.
Proof.
  intros w max st tr seq Hw Hint Hr Hseq.
  pose proof (reachable_inv w max st tr Hw Hr) as Hi.
  pose proof Hi as (Hl & Hlaf & _).
  rewrite seqRange_eq in Hl, Hlaf.
  assert (Hoff : Server.offset_of w (Server.s_largestAccFrame st) seq =
                 Some (w - Z.rem (Server.seqRange w + Server.s_largestAccFrame st - seq)
                                 (Server.seqRange w))).
  { unfold Server.offset_of.
    replace (in_int (Server.seqRange w + Server.s_largestAccFrame st - seq)) with true;
      [reflexivity|].
    symmetry. unfold in_int, INT_MIN, INT_MAX in *. rewrite seqRange_eq.
    apply andb_true_iff. lia. }
  destruct (receive_spec w st tr seq _ Hw Hi Hoff
              (fun _ => ltac:(rewrite seqRange_eq; lia)))
    as (b2 & las2 & laf2 & tr2 & Hrec & Hi2 & (new & Htr2 & Hna) & _).
  destruct Hi2 as (Hl2 & _ & Hn2 & _). simpl in Hl2, Hn2.
  rewrite seqRange_eq in Hl2, Hn2, Hrec.
  rewrite (Z.rem_mod_nonneg (las2 + 1)) in Hn2, Hrec by lia.
  rewrite Htr2 in Hrec.
  exists (Server.mkSrv b2 las2 laf2
            (if 0 <? w - Z.rem (2 * w + 1 + Server.s_largestAccFrame st - seq) (2 * w + 1)
             then Server.s_msgToAck st + 1 else Server.s_msgToAck st)), new.
  split; [exact Hrec|]. split; [exact Hna|]. exact Hn2.
Qed.

Lemma serverEarlyRetrans_one_ack_witness :
  match Server.srun 2 5 (Server.sinit 2) [1] [] with
  | Ok (st, tr) =>
      exists st' new,
        Server.receive 2 st 0 tr =
          Ok (st', Server.SAck ((Server.s_lastAckSent st' + 1) mod (2 * 2 + 1)) :: new ++ tr) /\
        Forall no_ack new /\
        Server.s_buf st' ((Server.s_lastAckSent st' + 1) mod (2 * 2 + 1)) = false
  | Fail _ => False
  end.
Proof.
  destruct (Server.srun 2 5 (Server.sinit 2) [1] []) as [[st tr]|e] eqn:E.
  - exact (serverEarlyRetrans_one_ack 2 5 st tr 0 ltac:(lia)
             ltac:(vm_compute; discriminate) (ex_intro _ [1] E) ltac:(lia)).
  - vm_compute in E. discriminate E.
Defined.

(** ** Invariant of [clientSlidingWindow] *)

Definition seq_ok (w : Z) (o : option Z) : Prop :=
  match o with None => True | Some v => 0 <= v < 2 * w + 1 end.

(** Received acknowledgments are non-negative, as every sequence number of
    the ring the receiver acknowledges with is. *)
Definition ack_nonneg (i : Client.input) : Prop :=
  match Client.in_poll i with None => True | Some r => 0 <= r end.

Definition CInv (w max : Z) (st : Client.cli) : Prop :=
  0 <= Client.c_lastAckRec st <= w /\ 0 <= Client.c_lastFrameSent st <= w /\
  0 <= Client.c_msgNum st /\
  (Client.c_pc st = Client.CWait -> Client.c_msgNum st < max) /\
  (Client.c_pc st = Client.CWait ->
     forall k, 0 <= k <= w -> seq_ok w (Client.c_buf st (k * max))).

Lemma outstanding_full : forall w lar lfs, 0 < w -> 0 <= lar <= w -> 0 <= lfs <= w ->
  0 <= Z.rem (lfs - lar + w + 1) (w + 1) <= w /\
  (lar = Z.rem (lfs + 1) (w + 1) <-> Z.rem (lfs - lar + w + 1) (w + 1) = w).
Proof.
  intros w lar lfs Hw Hl Hf.
  rewrite !Z.rem_mod_nonneg by lia.
  assert (Hs : (lfs + 1) mod (w + 1) = if lfs =? w then 0 else lfs + 1).
  { destruct (Z.eqb_spec lfs w) as [->|Hne].
    - apply Z_mod_same_full.
    - apply Z.mod_small. lia. }
  rewrite Hs.
  destruct (Z.le_gt_cases lar lfs) as [Hle|Hgt].
  - replace (lfs - lar + w + 1) with ((lfs - lar) + 1 * (w + 1)) by ring.
    rewrite Z_mod_plus_full, Z.mod_small by lia.
    destruct (Z.eqb_spec lfs w); lia.
  - rewrite Z.mod_small by lia.
    destruct (Z.eqb_spec lfs w); lia.
Qed.

Lemma rd_ok : forall w max b i v, Client.rd w max b i = Ok v ->
  0 <= i < (w + 1) * max /\ b i = Some v.
Proof.
  intros w max b i v H. unfold Client.rd, Client.buf_size in H.
  destruct ((0 <=? i) && (i <? (w + 1) * max)) eqn:E; [|discriminate].
  apply andb_true_iff in E. destruct (b i); inversion H; subst. split; [lia|reflexivity].
Qed.

Lemma wr_ok : forall w max b i v b', Client.wr w max b i v = Ok b' ->
  b' = (fun j => if j =? i then Some v else b j).
Proof.
  intros w max b i v b' H. unfold Client.wr in H.
  destruct ((0 <=? i) && (i <? Client.buf_size w max)); inversion H; reflexivity.
Qed.

Lemma ackAdvance_bound : forall w l p, 0 < w -> 0 <= l < 2 * w + 1 ->
  match p with None => True | Some r => 0 <= r end ->
  0 <= ackAdvance p l w <= w.
Proof.
  intros w l [r|] Hw Hl Hp.
  - exact (proj2 (ackAdvance_nonneg_ack w l r Hw Hl Hp)).
  - simpl. lia.
Qed.

Lemma rem_step_bound : forall w a, 0 < w -> 0 <= a -> 0 <= Z.rem a (w + 1) <= w.
Proof.
  intros w a Hw Ha. rewrite Z.rem_mod_nonneg by lia.
  pose proof (Z.mod_pos_bound a (w + 1)). lia.
Qed.

Definition not_msg_send (e : Client.ev) : Prop :=
  forall s, e <> Client.ESend (Msg s).

Lemma resend_events : forall w max b lar i k r evs r',
  Client.resend w max b lar i k r = Ok (evs, r') -> Forall not_msg_send evs.
Proof.
  intros w max b lar i k. revert i.
  induction k as [|k IH]; intros i r evs r' H; simpl in H.
  - inversion H. constructor.
  - destruct (Client.rd w max b (Z.rem (lar + i) (w + 1) * max)) as [v|e]; simpl in H;
      [|discriminate].
    destruct (Client.resend w max b lar (i + 1) k (r + 1)) as [[evs1 r1]|e] eqn:E;
      simpl in H; [|discriminate].
    inversion H; subst. constructor; [intros s; discriminate | eapply IH; exact E].
Qed.

Lemma wait_step_inv : forall w max st lap p st' evs, 0 < w -> CInv w max st ->
  Client.c_pc st = Client.CWait ->
  match p with None => True | Some r => 0 <= r end ->
  Client.wait_step w max st lap p = Ok (st', evs) ->
  CInv w max st' /\ Forall not_msg_send evs.
Proof.
  intros w max st lap p st' evs Hw Hi Hpc Hp H.
  destruct Hi as (Hl & Hf & Hm & Hmax & Hbuf).
  specialize (Hmax Hpc). specialize (Hbuf Hpc).
  unfold Client.wait_step in H.
  assert (Hev : forall evs0 r0,
    (if lap >? MAX_TIME then
       let* q := Client.resend w max (Client.c_buf st) (Client.c_lastAckRec st) 1
                   (Z.to_nat (Client.outstanding w st)) (Client.c_retrans st) in
       let '(evs, r) := q in Ok (evs ++ [Client.EStart], r)
     else Ok ([], Client.c_retrans st)) = Ok (evs0, r0) -> Forall not_msg_send evs0).
  { intros evs0 r0 E. destruct (lap >? MAX_TIME).
    - destruct (Client.resend w max (Client.c_buf st) (Client.c_lastAckRec st) 1
                  (Z.to_nat (Client.outstanding w st)) (Client.c_retrans st))
        as [[e1 r1]|e] eqn:Er; simpl in E; [|discriminate].
      inversion E; subst. apply Forall_app. split; [eapply resend_events; exact Er|].
      constructor; [intros s; discriminate|constructor].
    - inversion E. constructor. }
  destruct (if lap >? MAX_TIME then _ else _) as [[evs0 r0]|e] eqn:E0 in H;
    simpl in H; [|discriminate].
  destruct (Client.rd w max (Client.c_buf st) ((Client.c_lastAckRec st + 1) * max))
    as [l|e] eqn:El; simpl in H; [|discriminate].
  inversion H; subst; clear H.
  split; [|eapply Hev; exact E0].
  apply rd_ok in El. destruct El as [Hidx Hb].
  assert (Hk : 0 <= Client.c_lastAckRec st + 1 <= w) by nia.
  pose proof (Hbuf _ Hk) as Hl0. rewrite Hb in Hl0. unfold seq_ok in Hl0.
  pose proof (ackAdvance_bound w l p Hw Hl0 Hp).
  unfold CInv; simpl. split; [apply rem_step_bound; lia|]. auto.
Qed.

Lemma rem_succ_slot : forall w a, 0 < w -> 0 <= a <= w ->
  Z.rem (a + 1) (w + 1) = if a =? w then 0 else a + 1.
Proof.
  intros w a Hw Ha. rewrite Z.rem_mod_nonneg by lia.
  destruct (Z.eqb_spec a w) as [->|Hne]; [apply Z_mod_same_full|apply Z.mod_small; lia].
Qed.

(** The copy of [message[1]] lands at [lastFrameSent * max + 1], never on
    the sequence field [k * max] of a slot when [max >= 2]. *)
Lemma slot_ne_second : forall max k j, 2 <= max -> k * max <> j * max + 1.
Proof.
  intros max k j Hm H.
  assert (Hd : (k - j) * max = 1) by (rewrite Z.mul_sub_distr_r; lia).
  destruct (Z.le_gt_cases (k - j) 0) as [Hle|Hgt].
  - assert ((k - j) * max <= 0) by (apply Z.mul_nonpos_nonneg; lia). lia.
  - assert (1 * max <= (k - j) * max) by (apply Z.mul_le_mono_nonneg_r; lia). lia.
Qed.

Lemma send_step_inv : forall w max msg1 st p st' evs, 0 < w -> CInv w max st ->
  Client.c_pc st = Client.CWait -> Client.full w st = false ->
  match p with None => True | Some r => 0 <= r end ->
  Client.send_step w max msg1 st p = Ok (st', evs) ->
  CInv w max st'.
Proof.
  intros w max msg1 st p st' evs Hw Hi Hpc Hnf Hp H.
  destruct Hi as (Hl & Hf & Hm & Hmax & Hbuf).
  specialize (Hmax Hpc). specialize (Hbuf Hpc).
  unfold Client.full in Hnf. apply Z.eqb_neq in Hnf.
  unfold Client.send_step in H.
  set (lfs' := Z.rem (Client.c_lastFrameSent st + 1) (w + 1)) in *.
  set (sq := Z.rem (Client.c_msgNum st) (Client.seqRange w)) in *.
  destruct (Client.wr w max (Client.c_buf st) (lfs' * max + 0) sq) as [b1|e] eqn:E1;
    simpl in H; [|discriminate].
  destruct (Client.wr w max b1 (lfs' * max + 1) msg1) as [b2|e] eqn:E2;
    simpl in H; [|discriminate].
  destruct (Client.rd w max b2 (Z.rem (Client.c_lastAckRec st + 1) (w + 1) * max))
    as [l|e] eqn:E3; simpl in H; [|discriminate].
  inversion H; subst; clear H.
  apply wr_ok in E1. apply wr_ok in E2. subst b1 b2.
  apply rd_ok in E3. destruct E3 as [Hidx Hb].
  assert (Hlfs : 0 <= lfs' <= w) by (apply rem_step_bound; lia).
  assert (Hsq : 0 <= sq < 2 * w + 1).
  { subst sq. unfold Client.seqRange. rewrite Z.rem_mod_nonneg by lia.
    pose proof (Z.mod_pos_bound (Client.c_msgNum st) (w * 2 + 1)). lia. }
  set (k := Z.rem (Client.c_lastAckRec st + 1) (w + 1)) in *.
  assert (Hk : 0 <= k <= w) by (apply rem_step_bound; lia).
  assert (Hne : k * max <> lfs' * max + 1).
  { destruct (Z.le_gt_cases 2 max) as [H2|H2]; [apply slot_ne_second; exact H2|].
    assert (max = 1) as -> by lia.
    subst k. rewrite rem_succ_slot by lia.
    unfold lfs' in Hnf. intros Heq.
    destruct (Z.eqb_spec (Client.c_lastAckRec st) w); lia. }
  assert (Hl0 : 0 <= l < 2 * w + 1).
  { rewrite (proj2 (Z.eqb_neq _ _) Hne) in Hb.
    destruct (k * max =? lfs' * max + 0) eqn:E0.
    - inversion Hb; subst. exact Hsq.
    - pose proof (Hbuf k Hk) as Hs. rewrite Hb in Hs. exact Hs. }
  pose proof (ackAdvance_bound w l p Hw Hl0 Hp).
  unfold CInv; simpl.
  split; [apply rem_step_bound; lia|].
  split; [exact Hlfs|].
  split; [lia|].
  split; [destruct (Client.c_msgNum st + 1 <? max) eqn:E; [apply Z.ltb_lt in E; auto|discriminate]|].
  intros Hw2 k' Hk'.
  destruct (Client.c_msgNum st + 1 <? max) eqn:E; [|discriminate].
  apply Z.ltb_lt in E.
  rewrite (proj2 (Z.eqb_neq _ _) (slot_ne_second max k' lfs' ltac:(lia))).
  destruct (k' * max =? lfs' * max + 0); [exact Hsq|apply Hbuf; exact Hk'].
Qed.

Lemma wait_step_events : forall w max st lap p st' evs,
  Client.wait_step w max st lap p = Ok (st', evs) -> Forall not_msg_send evs.
Proof.
  intros w max st lap p st' evs H. unfold Client.wait_step in H.
  destruct (lap >? MAX_TIME).
  - destruct (Client.resend w max (Client.c_buf st) (Client.c_lastAckRec st) 1
                (Z.to_nat (Client.outstanding w st)) (Client.c_retrans st))
      as [[e1 r1]|e] eqn:Er; simpl in H; [|discriminate].
    destruct (Client.rd w max (Client.c_buf st) ((Client.c_lastAckRec st + 1) * max));
      simpl in H; [|discriminate].
    inversion H; subst. apply Forall_app. split; [eapply resend_events; exact Er|].
    constructor; [intros s; discriminate|constructor].
  - simpl in H.
    destruct (Client.rd w max (Client.c_buf st) ((Client.c_lastAckRec st + 1) * max));
      simpl in H; [|discriminate].
    inversion H; subst. constructor.
Qed.

Lemma cstep_inv : forall w max msg1 st i st' evs, 0 < w -> CInv w max st ->
  ack_nonneg i -> Client.cstep w max msg1 st i = Ok (st', evs) -> CInv w max st'.
Proof.
  intros w max msg1 st i st' evs Hw Hi Hp H. unfold Client.cstep in H.
  destruct (Client.c_pc st) eqn:Epc.
  - destruct (Client.full w st) eqn:Ef.
    + eapply wait_step_inv; eassumption.
    + eapply send_step_inv; eassumption.
  - inversion H; subst; assumption.
Qed.

Lemma crun_inv : forall w max msg1 inps st st' evs, 0 < w -> CInv w max st ->
  Forall ack_nonneg inps -> Client.crun w max msg1 st inps = Ok (st', evs) ->
  CInv w max st'.
Proof.
  intros w max msg1 inps. induction inps as [|i is IH]; intros st st' evs Hw Hi Hf H;
    simpl in H.
  - inversion H; subst; assumption.
  - inversion Hf as [|? ? Hi0 His]; subst.
    destruct (Client.cstep w max msg1 st i) as [[st1 e1]|e] eqn:E; simpl in H;
      [|discriminate].
    destruct (Client.crun w max msg1 st1 is) as [[st2 e2]|e] eqn:E2; simpl in H;
      [|discriminate].
    inversion H; subst.
    eapply IH; [exact Hw| |exact His|exact E2]. eapply cstep_inv; eassumption.
Qed.

Lemma cinit_inv : forall w max, 0 < w -> CInv w max (Client.cinit max).
Proof.
  intros w max Hw. unfold CInv, Client.cinit. simpl.
  destruct (0 <? max) eqn:E.
  - apply Z.ltb_lt in E. repeat split; try lia; intros; exact I.
  - repeat split; try lia; intros; discriminate.
Qed.

(** C4.  In every state a run of [clientSlidingWindow] reaches (with the
    non-negative acknowledgments the receiver sends), the outstanding count
    [(lastFrameSent - lastAckRec + windowSize + 1) % (windowSize + 1)] is in
    [0, windowSize]; the window-full test [lastAckRec == (lastFrameSent + 1)
    % (windowSize + 1)] holds exactly when the count is [windowSize]; and a
    step that sends a new frame starts from a count below [windowSize]. *)
Theorem clientSlidingWindow_window_bound : forall w max msg1 inps st evs, 0 < w ->
  Forall ack_nonneg inps ->
  Client.crun w max msg1 (Client.cinit max) inps = Ok (st, evs) ->
  0 <= Client.outstanding w st <= w /\
  (Client.full w st = true <-> Client.outstanding w st = w) /\
  (forall i st' evs' s, Client.cstep w max msg1 st i = Ok (st', evs') ->
     In (Client.ESend (Msg s)) evs' -> Client.outstanding w st < w).
Proof.
  intros w max msg1 inps st evs Hw Hf H.
  pose proof (crun_inv w max msg1 inps _ st evs Hw (cinit_inv w max Hw) Hf H)
    as (Hl & Hfs & _).
  destruct (outstanding_full w _ _ Hw Hl Hfs) as [Hb Hiff].
  unfold Client.outstanding, Client.full.
  split; [exact Hb|].
  split; [rewrite Z.eqb_eq; exact Hiff|].
  intros i st' evs' s Hs Hin. unfold Client.cstep in Hs.
  destruct (Client.c_pc st).
  - destruct (Client.full w st) eqn:Ef.
    + apply wait_step_events in Hs.
      rewrite Forall_forall in Hs. exfalso. exact (Hs _ Hin s eq_refl).
    + unfold Client.full in Ef. apply Z.eqb_neq in Ef.
      assert (Client.outstanding w st <> w) by (intros E; apply Ef, Hiff, E).
      unfold Client.outstanding in *. lia.
  - inversion Hs; subst. destruct Hin.
Qed.

Lemma clientSlidingWindow_window_bound_witness :
  match Client.crun 1 2 0 (Client.cinit 2) c3_inputs with
  | Ok (st, evs) => 0 <= Client.outstanding 1 st <= 1
  | Fail _ => False
  end.
Proof.
  destruct (Client.crun 1 2 0 (Client.cinit 2) c3_inputs) as [[st evs]|e] eqn:E.
  - exact (proj1 (clientSlidingWindow_window_bound 1 2 0 c3_inputs st evs ltac:(lia)
                    ltac:(repeat constructor) E)).
  - vm_compute in E. discriminate E.
Defined.

(** ** Further properties: stop-and-wait *)

(** Number of [sendTo] calls among [clientStopWait]'s events. *)
Fixpoint nsend (evs : list StopWait.ev) : Z :=
  match evs with
  | [] => 0
  | StopWait.ESend _ :: t => 1 + nsend t
  | StopWait.EStart :: t => nsend t
  end.

Definition is_bit (r : StopWait.round) : Prop :=
  StopWait.ack r = 0 \/ StopWait.ack r = 1.

Lemma nsend_app : forall a b, nsend (a ++ b) = nsend a + nsend b.
Proof.
  induction a as [|e a IH]; intros b; cbn [app nsend]; [lia|].
  destruct e; rewrite IH; lia.
Qed.

Lemma wait_reply_sends : forall bit ls retrans,
  nsend (fst (StopWait.wait_reply bit retrans ls)) =
  snd (StopWait.wait_reply bit retrans ls) - retrans.
Proof.
  intros bit ls. induction ls as [|t ls IH]; intros retrans; simpl; [lia|].
  destruct (t >? MAX_TIME).
  - specialize (IH (retrans + 1)).
    destruct (StopWait.wait_reply bit (retrans + 1) ls) as [e r].
    cbn [fst snd nsend] in *. lia.
  - apply IH.
Qed.

Lemma msg_bit_range : forall n, StopWait.msg_bit n = 0 \/ StopWait.msg_bit n = 1.
Proof.
  intros n. rewrite msg_bit_mod. pose proof (Z.mod_pos_bound n 2). lia.
Qed.

Lemma lxor_bits : forall a b, (a = 0 \/ a = 1) -> (b = 0 \/ b = 1) ->
  Z.lxor a b = if a =? b then 0 else 1.
Proof. intros a b [-> | ->] [-> | ->]; reflexivity. Qed.

Lemma msg_loop_sends : forall bit rs retrans evs r' rest,
  (bit = 0 \/ bit = 1) -> Forall is_bit rs ->
  StopWait.msg_loop bit retrans rs = Some (evs, r', rest) ->
  nsend evs = 1 + (r' - retrans).
Proof.
  intros bit rs. induction rs as [|r rs IH]; intros retrans evs r' rest Hb Hf H;
    simpl in H; [discriminate|].
  inversion Hf as [|? ? Hr Hrs]; subst.
  unfold StopWait.sw_body in H.
  pose proof (wait_reply_sends bit (StopWait.laps r) retrans) as Hw.
  destruct (StopWait.wait_reply bit retrans (StopWait.laps r)) as [e1 s1]. simpl in Hw.
  rewrite (lxor_bits _ _ Hr Hb) in H.
  destruct (StopWait.ack r =? bit) eqn:E; simpl in H.
  - inversion H; subst. cbn [nsend]. lia.
  - destruct (StopWait.msg_loop bit (s1 + 1) rs) as [[[e2 r2] rest2]|] eqn:E2;
      [|discriminate].
    inversion H; subst.
    pose proof (IH _ _ _ _ Hb Hrs E2).
    cbn [nsend]. rewrite nsend_app. lia.
Qed.

Lemma msg_loop_rest : forall bit rs retrans evs r' rest,
  StopWait.msg_loop bit retrans rs = Some (evs, r', rest) ->
  exists pre, rs = pre ++ rest.
Proof.
  intros bit rs retrans evs r' rest H.
  destruct (msg_loop_ends _ _ _ _ _ _ H) as (pre & r0 & -> & _).
  exists (pre ++ [r0]). rewrite <- app_assoc. reflexivity.
Qed.

Lemma client_from_sends : forall k msgNum retrans rs evs r,
  Forall is_bit rs ->
  StopWait.client_from msgNum k retrans rs = Some (evs, r) ->
  nsend evs = Z.of_nat k + (r - retrans).
Proof.
  induction k as [|k IH]; intros msgNum retrans rs evs r Hf H; simpl in H.
  - inversion H; subst. cbn [nsend]. lia.
  - destruct (StopWait.msg_loop (StopWait.msg_bit msgNum) retrans rs)
      as [[[e1 r1] rest]|] eqn:E1; [|discriminate].
    destruct (StopWait.client_from (msgNum + 1) k r1 rest) as [[e2 r2]|] eqn:E2;
      [|discriminate].
    inversion H; subst.
    pose proof (msg_loop_sends _ _ _ _ _ _ (msg_bit_range msgNum) Hf E1).
    destruct (msg_loop_rest _ _ _ _ _ _ E1) as [pre Hpre].
    assert (Hf2 : Forall is_bit rest)
      by (rewrite Hpre in Hf; apply Forall_app in Hf; tauto).
    pose proof (IH _ _ _ _ _ Hf2 E2).
    rewrite nsend_app. lia.
Qed.

(** X1. [clientStopWait]'s return value counts exactly the extra
    transmissions: with 0/1 acknowledgments, a run for [max >= 0]
    messages calls [sendTo] [max + retrans] times. *)
Theorem clientStopWait_send_count : forall max rs evs retrans, 0 <= max ->
  Forall is_bit rs ->
  StopWait.clientStopWait max rs = Some (evs, retrans) ->
  nsend evs = max + retrans.
Proof.
  intros max rs evs retrans Hm Hf H. unfold StopWait.clientStopWait in H.
  pose proof (client_from_sends _ _ _ _ _ _ Hf H). lia.
Qed.

Lemma clientStopWait_send_count_witness :
  StopWait.clientStopWait 2
    [StopWait.mkRound [2000] 1; StopWait.mkRound [] 0; StopWait.mkRound [] 1] =
    Some ([StopWait.ESend 0; StopWait.EStart; StopWait.ESend 0; StopWait.EStart;
           StopWait.ESend 0; StopWait.EStart; StopWait.ESend 1; StopWait.EStart], 2) /\
  nsend [StopWait.ESend 0; StopWait.EStart; StopWait.ESend 0; StopWait.EStart;
         StopWait.ESend 0; StopWait.EStart; StopWait.ESend 1; StopWait.EStart] = 2 + 2.
Proof.
  split; [reflexivity|].
  apply (clientStopWait_send_count 2
    [StopWait.mkRound [2000] 1; StopWait.mkRound [] 0; StopWait.mkRound [] 1]);
    [lia | |reflexivity].
  apply Forall_forall. intros x Hx. unfold is_bit.
  simpl in Hx. intuition (subst; simpl; auto).
Defined.

(** X2. [serverReliable] acknowledges every frame it receives by echoing
    it: the acknowledgments are the received frames in order (a prefix of
    the input), all of them unless the loop ended at [msgToAck = max], and
    for [max >= 0] the final [msgToAck] lies in [0, max]. *)
Theorem serverReliable_echo : forall max frames,
  let '(acks, m) := StopWait.serverReliable max frames in
  (exists rest, frames = acks ++ rest /\ (rest <> [] -> m = Z.max 0 max)) /\
  (0 <= max -> 0 <= m <= max).
Proof.
  intros max frames. unfold StopWait.serverReliable.
  assert (G : forall fs m0, 0 <= m0 -> m0 <= Z.max 0 max ->
    let '(acks, m) := StopWait.server_from max m0 fs in
    (exists rest, fs = acks ++ rest /\ (rest <> [] -> m = Z.max 0 max)) /\
    m0 <= m <= Z.max 0 max).
  { induction fs as [|f fs IH]; intros m0 H0 H1; simpl.
    - destruct (m0 <? max); split; try lia; exists []; split; auto; congruence.
    - destruct (m0 <? max) eqn:Elt.
      + apply Z.ltb_lt in Elt.
        set (nx := if StopWait.reliable_guard f m0 then m0 else m0 + 1).
        assert (Hnx : m0 <= nx <= Z.max 0 max)
          by (subst nx; destruct (StopWait.reliable_guard f m0); lia).
        specialize (IH nx ltac:(lia) ltac:(lia)).
        destruct (StopWait.server_from max nx fs) as [acks m].
        destruct IH as [(rest & -> & Hr) Hm]. split; [|lia].
        exists rest. split; [reflexivity|exact Hr].
      + apply Z.ltb_ge in Elt. split; [|lia].
        exists (f :: fs). split; [reflexivity|intros _; lia]. }
  specialize (G frames 0 ltac:(lia) ltac:(lia)).
  destruct (StopWait.server_from max 0 frames) as [acks m].
  destruct G as [Hp Hm]. split; [exact Hp|intros; lia].
Qed.

(** ** Further properties: [ackAdvance] and [clientSlidingWindow] *)





(** Datagrams [clientSlidingWindow] retransmits: [sendTo] calls on
    [(char* )buffer[...]]. *)
Fixpoint nresent (evs : list Client.ev) : Z :=
  match evs with
  | [] => 0
  | Client.ESend (FromInt _) :: t => 1 + nresent t
  | _ :: t => nresent t
  end.

(** Sequence numbers of the new frames, [sendTo(message, ...)], in order. *)
Fixpoint msg_seqs (evs : list Client.ev) : list Z :=
  match evs with
  | [] => []
  | Client.ESend (Msg s) :: t => s :: msg_seqs t
  | _ :: t => msg_seqs t
  end.

Fixpoint zseq (a : Z) (n : nat) : list Z :=
  match n with
  | O => []
  | S n' => a :: zseq (a + 1) n'
  end.

Lemma nresent_app : forall a b, nresent (a ++ b) = nresent a + nresent b.
Proof.
  induction a as [|e a IH]; intros b; cbn [app nresent]; [lia|].
  destruct e as [[s|v]|]; rewrite IH; lia.
Qed.

Lemma msg_seqs_app : forall a b, msg_seqs (a ++ b) = msg_seqs a ++ msg_seqs b.
Proof.
  induction a as [|e a IH]; intros b; cbn [app msg_seqs]; [reflexivity|].
  destruct e as [[s|v]|]; rewrite IH; reflexivity.
Qed.

Lemma zseq_app : forall n m a, zseq a (n + m) = zseq a n ++ zseq (a + Z.of_nat n) m.
Proof.
  induction n as [|n IH]; intros m a; simpl.
  - rewrite Z.add_0_r. reflexivity.
  - rewrite IH. do 2 f_equal. f_equal. lia.
Qed.

Lemma resend_count : forall w max b lar k i r evs r',
  Client.resend w max b lar i k r = Ok (evs, r') ->
  r' = r + nresent evs /\ msg_seqs evs = [].
Proof.
  intros w max b lar k. induction k as [|k IH]; intros i r evs r' H; simpl in H.
  - inversion H; subst. simpl. split; [lia|reflexivity].
  - destruct (Client.rd w max b (Z.rem (lar + i) (w + 1) * max)) as [v|e]; simpl in H;
      [|discriminate].
    destruct (Client.resend w max b lar (i + 1) k (r + 1)) as [[e1 r1]|e] eqn:E;
      simpl in H; [|discriminate].
    inversion H; subst. destruct (IH _ _ _ _ E) as [H1 H2].
    cbn [nresent msg_seqs]. split; [lia|exact H2].
Qed.

Lemma wait_step_count : forall w max st lap p st' evs,
  Client.wait_step w max st lap p = Ok (st', evs) ->
  Client.c_retrans st' = Client.c_retrans st + nresent evs /\ msg_seqs evs = [] /\
  Client.c_msgNum st' = Client.c_msgNum st /\ Client.c_pc st' = Client.CWait.
Proof.
  intros w max st lap p st' evs H. unfold Client.wait_step in H.
  destruct (lap >? MAX_TIME).
  - destruct (Client.resend w max (Client.c_buf st) (Client.c_lastAckRec st) 1
                (Z.to_nat (Client.outstanding w st)) (Client.c_retrans st))
      as [[e1 r1]|e] eqn:Er; simpl in H; [|discriminate].
    destruct (Client.rd w max (Client.c_buf st) ((Client.c_lastAckRec st + 1) * max));
      simpl in H; [|discriminate].
    inversion H; subst. destruct (resend_count _ _ _ _ _ _ _ _ _ Er) as [H1 H2].
    rewrite nresent_app, msg_seqs_app, H2. cbn [nresent msg_seqs Client.c_retrans
      Client.c_msgNum Client.c_pc app]. repeat split; lia.
  - simpl in H.
    destruct (Client.rd w max (Client.c_buf st) ((Client.c_lastAckRec st + 1) * max));
      simpl in H; [|discriminate].
    inversion H; subst. cbn. repeat split; lia.
Qed.

Lemma send_step_count : forall w max msg1 st p st' evs,
  Client.send_step w max msg1 st p = Ok (st', evs) ->
  Client.c_retrans st' = Client.c_retrans st /\ nresent evs = 0 /\
  msg_seqs evs = [Z.rem (Client.c_msgNum st) (Client.seqRange w)] /\
  Client.c_msgNum st' = Client.c_msgNum st + 1 /\
  Client.c_pc st' = (if Client.c_msgNum st + 1 <? max then Client.CWait else Client.CDone).
Proof.
  intros w max msg1 st p st' evs H. unfold Client.send_step in H.
  destruct (Client.wr w max (Client.c_buf st) _ _) as [b1|e]; simpl in H; [|discriminate].
  destruct (Client.wr w max b1 _ _) as [b2|e]; simpl in H; [|discriminate].
  destruct (Client.rd w max b2 _) as [l|e]; simpl in H; [|discriminate].
  inversion H; subst. cbn [Client.c_retrans Client.c_msgNum Client.c_pc].
  destruct (Client.c_msgNum st + 1 <? max); cbn; repeat split; lia.
Qed.

(** What a run keeps: [msgNum] never decreases and stays within the loop
    bound, and the loop is over exactly when it reached [max]. *)
Definition PInv (max : Z) (st : Client.cli) : Prop :=
  0 <= Client.c_msgNum st /\
  (Client.c_pc st = Client.CWait -> Client.c_msgNum st < max) /\
  (Client.c_pc st = Client.CDone -> Client.c_msgNum st = Z.max 0 max).

Lemma crun_count : forall w max msg1 inps st st' evs,
  PInv max st ->
  Client.crun w max msg1 st inps = Ok (st', evs) ->
  PInv max st' /\
  Client.c_retrans st' = Client.c_retrans st + nresent evs /\
  exists n, Client.c_msgNum st' = Client.c_msgNum st + Z.of_nat n /\
    msg_seqs evs = map (fun k => Z.rem k (Client.seqRange w)) (zseq (Client.c_msgNum st) n).
Proof.
  intros w max msg1 inps. induction inps as [|i is IH]; intros st st' evs Hi H;
    simpl in H.
  - inversion H; subst. split; [exact Hi|]. split; [cbn [nresent]; lia|].
    exists O. split; [lia|reflexivity].
  - destruct (Client.cstep w max msg1 st i) as [[st1 e1]|e] eqn:E; simpl in H;
      [|discriminate].
    destruct (Client.crun w max msg1 st1 is) as [[st2 e2]|e] eqn:E2; simpl in H;
      [|discriminate].
    inversion H; subst; clear H.
    assert (Hstep : PInv max st1 /\
      Client.c_retrans st1 = Client.c_retrans st + nresent e1 /\
      exists n, Client.c_msgNum st1 = Client.c_msgNum st + Z.of_nat n /\
        msg_seqs e1 = map (fun k => Z.rem k (Client.seqRange w)) (zseq (Client.c_msgNum st) n)).
    { destruct Hi as (H0 & Hw & Hd). unfold Client.cstep in E.
      destruct (Client.c_pc st) eqn:Epc.
      - specialize (Hw eq_refl).
        destruct (Client.full w st).
        + destruct (wait_step_count _ _ _ _ _ _ _ E) as (R & M & N & P).
          split; [unfold PInv; rewrite N, P; repeat split; [lia|intros _; lia|discriminate]|].
          split; [exact R|]. exists O. rewrite M. split; [lia|reflexivity].
        + destruct (send_step_count _ _ _ _ _ _ _ E) as (R & Z0 & M & N & P).
          split.
          { unfold PInv. rewrite N, P. destruct (Client.c_msgNum st + 1 <? max) eqn:Elt.
            - apply Z.ltb_lt in Elt. repeat split; [lia|intros _; lia|discriminate].
            - apply Z.ltb_ge in Elt. repeat split; [lia|discriminate|intros _; lia]. }
          split; [lia|]. exists 1%nat. rewrite M, N. split; [lia|reflexivity].
      - inversion E; subst.
        split; [repeat split; [exact H0|intros Hc; rewrite Epc in Hc; discriminate
                                        |intros _; exact (Hd eq_refl)]|]. split; [cbn [nresent]; lia|].
        exists O. split; [lia|reflexivity]. }
    destruct Hstep as (Hi1 & R1 & n1 & N1 & M1).
    destruct (IH _ _ _ Hi1 E2) as (Hi2 & R2 & n2 & N2 & M2).
    split; [exact Hi2|]. split; [rewrite nresent_app; lia|].
    exists (n1 + n2)%nat. split; [lia|].
    rewrite msg_seqs_app, M1, M2, zseq_app, map_app, N1. reflexivity.
Qed.

Lemma cinit_pinv : forall max, PInv max (Client.cinit max).
Proof.
  intros max. unfold PInv, Client.cinit. simpl.
  destruct (0 <? max) eqn:E.
  - apply Z.ltb_lt in E. repeat split; [lia|intros _; lia|discriminate].
  - apply Z.ltb_ge in E. repeat split; [lia|discriminate|intros _; lia].
Qed.

(** X5. [clientSlidingWindow]'s return value counts exactly the datagrams
    it retransmits: after any run, [retrans] equals the number of
    [sendTo] calls of the resend loop. *)
Theorem clientSlidingWindow_retrans_count : forall w max msg1 inps st evs,
  Client.crun w max msg1 (Client.cinit max) inps = Ok (st, evs) ->
  Client.c_retrans st = nresent evs.
Proof.
  intros w max msg1 inps st evs H.
  destruct (crun_count _ _ _ _ _ _ _ (cinit_pinv max) H) as (_ & R & _).
  rewrite R. reflexivity.
Qed.

Lemma clientSlidingWindow_retrans_count_witness :
  match Client.crun 1 2 0 (Client.cinit 2) c3_inputs with
  | Ok (st, evs) => Client.c_retrans st = nresent evs
  | Fail _ => False
  end.
Proof.
  destruct (Client.crun 1 2 0 (Client.cinit 2) c3_inputs) as [[st evs]|e] eqn:E.
  - exact (clientSlidingWindow_retrans_count 1 2 0 c3_inputs st evs E).
  - vm_compute in E. discriminate E.
Defined.

(** X6. The new frames of a [clientSlidingWindow] run carry the sequence
    numbers 0, 1, 2, ... reduced modulo [2 * windowSize + 1], one per
    completed iteration [msgNum] of the for loop. *)
Theorem clientSlidingWindow_frame_seqs : forall w max msg1 inps st evs, 0 < w ->
  Client.crun w max msg1 (Client.cinit max) inps = Ok (st, evs) ->
  msg_seqs evs = map (fun k => k mod (2 * w + 1)) (zseq 0 (Z.to_nat (Client.c_msgNum st))).
Proof.
  intros w max msg1 inps st evs Hw H.
  destruct (crun_count _ _ _ _ _ _ _ (cinit_pinv max) H) as (_ & _ & n & N & M).
  cbn [Client.c_msgNum Client.cinit] in N, M.
  rewrite M, N, Z.add_0_l, Nat2Z.id.
  assert (G : forall a, 0 <= a ->
    map (fun k => Z.rem k (Client.seqRange w)) (zseq a n) =
    map (fun k => k mod (2 * w + 1)) (zseq a n)).
  { clear M N H. induction n as [|n IH]; intros a Ha; cbn [zseq map]; [reflexivity|].
    rewrite IH by lia. f_equal. unfold Client.seqRange.
    rewrite Z.rem_mod_nonneg by lia. f_equal. ring. }
  apply G. lia.
Qed.

Lemma clientSlidingWindow_frame_seqs_witness :
  match Client.crun 1 3 0 (Client.cinit 3)
          [Client.mkInput 0 None; Client.mkInput 0 (Some 1); Client.mkInput 0 (Some 2)] with
  | Ok (st, evs) =>
      msg_seqs evs = map (fun k => k mod (2 * 1 + 1)) (zseq 0 (Z.to_nat (Client.c_msgNum st)))
  | Fail _ => False
  end.
Proof.
  destruct (Client.crun 1 3 0 (Client.cinit 3)
    [Client.mkInput 0 None; Client.mkInput 0 (Some 1); Client.mkInput 0 (Some 2)])
    as [[st evs]|e] eqn:E.
  - exact (clientSlidingWindow_frame_seqs 1 3 0 _ st evs ltac:(lia) E).
  - vm_compute in E. discriminate E.
Defined.

(** X7. [clientSlidingWindow] sends at most [max] new frames: [msgNum] stays
    in [0, max] (0 when [max <= 0]), and the run is over exactly when it
    has reached [max]. *)
Theorem clientSlidingWindow_msg_bound : forall w max msg1 inps st evs,
  Client.crun w max msg1 (Client.cinit max) inps = Ok (st, evs) ->
  0 <= Client.c_msgNum st <= Z.max 0 max /\
  (Client.c_pc st = Client.CDone <-> Client.c_msgNum st = Z.max 0 max) /\
  Z.of_nat (length (msg_seqs evs)) = Client.c_msgNum st.
Proof.
  intros w max msg1 inps st evs H.
  destruct (crun_count _ _ _ _ _ _ _ (cinit_pinv max) H) as ((H0 & Hw & Hd) & _ & n & N & M).
  cbn [Client.c_msgNum Client.cinit] in N, M.
  assert (Hl : Z.of_nat (length (msg_seqs evs)) = Client.c_msgNum st).
  { rewrite M, length_map, N.
    assert (G : forall a, length (zseq a n) = n)
      by (clear; induction n as [|n IH]; intros a; simpl; [reflexivity|rewrite IH; reflexivity]).
    rewrite G. lia. }
  split; [|split; [|exact Hl]].
  - destruct (Client.c_pc st); [specialize (Hw eq_refl); lia|specialize (Hd eq_refl); lia].
  - destruct (Client.c_pc st); split; intros E; auto; try discriminate.
    specialize (Hw eq_refl). lia.
Qed.

Lemma clientSlidingWindow_msg_bound_witness :
  match Client.crun 1 2 0 (Client.cinit 2)
          [Client.mkInput 0 None; Client.mkInput 0 (Some 1); Client.mkInput 0 None] with
  | Ok (st, evs) => Client.c_pc st = Client.CDone /\ Client.c_msgNum st = 2
  | Fail _ => False
  end.
Proof.
  destruct (Client.crun 1 2 0 (Client.cinit 2)
    [Client.mkInput 0 None; Client.mkInput 0 (Some 1); Client.mkInput 0 None]) as [[st evs]|e] eqn:E.
  - destruct (clientSlidingWindow_msg_bound 1 2 0 _ st evs E) as (_ & Hd & _).
    split; [vm_compute in E; inversion E; reflexivity|].
    apply Hd. vm_compute in E; inversion E; reflexivity.
  - vm_compute in E. discriminate E.
Defined.

(** X8. Whenever the full-window wait loop polls with [lastAckRec =
    windowSize] and no timeout, its read [buffer[(lastAckRec + 1) * max]]
    indexes one past the last slot, [(windowSize + 1) * max], so the
    iteration is out of bounds. *)
Theorem clientSlidingWindow_wait_oob_at_edge : forall w max st lap p,
  0 <= w -> 0 < max -> Client.c_lastAckRec st = w -> lap <= MAX_TIME ->
  Client.wait_step w max st lap p = Fail (OutOfBounds ((w + 1) * max)).
Proof.
  intros w max st lap p Hw Hm Hl Ht. unfold Client.wait_step.
  replace (lap >? MAX_TIME) with false by (symmetry; rewrite Z.gtb_ltb; apply Z.ltb_ge; lia).
  simpl. rewrite Hl. unfold Client.rd, Client.buf_size.
  replace (0 <=? (w + 1) * max) with true by (symmetry; apply Z.leb_le; nia).
  rewrite Z.ltb_irrefl. reflexivity.
Qed.

Lemma clientSlidingWindow_wait_oob_at_edge_witness :
  Client.wait_step 2 4 (Client.mkCli Client.CWait 0 2 1 (fun _ => Some 0) 5) 0 None =
    Fail (OutOfBounds 12).
Proof.
  exact (clientSlidingWindow_wait_oob_at_edge 2 4
           (Client.mkCli Client.CWait 0 2 1 (fun _ => Some 0) 5) 0 None ltac:(lia) ltac:(lia)
           eq_refl ltac:(unfold MAX_TIME; lia)).
Defined.

(** X9. With [max >= 2] and both cursors in [0, windowSize], the part of the
    for-loop body after the wait (the copy [buffer[lastFrameSent * max +
    i] = message[i]] for [i] = 0, 1 and the read
    [buffer[((lastAckRec + 1) % (windowSize + 1)) * max]]) never indexes
    outside the buffer. *)
Theorem clientSlidingWindow_send_in_bounds : forall w max msg1 st p i,
  0 < w -> 2 <= max ->
  0 <= Client.c_lastAckRec st <= w -> 0 <= Client.c_lastFrameSent st <= w ->
  Client.send_step w max msg1 st p <> Fail (OutOfBounds i).
Proof.
  intros w max msg1 st p i Hw Hm Hl Hf. unfold Client.send_step.
  set (lfs' := Z.rem (Client.c_lastFrameSent st + 1) (w + 1)).
  assert (Hlfs : 0 <= lfs' <= w) by (apply rem_step_bound; lia).
  assert (Hw1 : forall b j v, 0 <= j < (w + 1) * max ->
            Client.wr w max b j v = Ok (fun x => if x =? j then Some v else b x)).
  { intros b j v Hj. unfold Client.wr, Client.buf_size.
    replace ((0 <=? j) && (j <? (w + 1) * max)) with true
      by (symmetry; apply andb_true_iff; split; [apply Z.leb_le|apply Z.ltb_lt]; lia).
    reflexivity. }
  rewrite Hw1 by nia. simpl. rewrite Hw1 by nia. simpl.
  set (k := Z.rem (Client.c_lastAckRec st + 1) (w + 1)).
  assert (Hk : 0 <= k <= w) by (apply rem_step_bound; lia).
  unfold Client.rd, Client.buf_size.
  replace ((0 <=? k * max) && (k * max <? (w + 1) * max)) with true
    by (symmetry; apply andb_true_iff; split; [apply Z.leb_le|apply Z.ltb_lt]; nia).
  destruct (if k * max =? lfs' * max + 1 then _ else _); simpl; discriminate.
Qed.

Lemma clientSlidingWindow_send_in_bounds_witness :
  Client.send_step 2 3 7 (Client.mkCli Client.CWait 0 1 2 (fun _ => None) 2) None <>
    Fail (OutOfBounds 9).
Proof.
  exact (clientSlidingWindow_send_in_bounds 2 3 7
           (Client.mkCli Client.CWait 0 1 2 (fun _ => None) 2) None 9 ltac:(lia) ltac:(lia)
           ltac:(simpl; lia) ltac:(simpl; lia)).
Defined.

(** ** Further properties: [serverEarlyRetrans] *)

(** Frames stored ([buffer[seq] = true]) and acknowledgments sent in a
    trace of [serverEarlyRetrans]. *)
Fixpoint count_store (tr : list Server.sev) : nat :=
  match tr with
  | [] => O
  | Server.SStore _ :: t => S (count_store t)
  | _ :: t => count_store t
  end.

Fixpoint count_ack (tr : list Server.sev) : nat :=
  match tr with
  | [] => O
  | Server.SAck _ :: t => S (count_ack t)
  | _ :: t => count_ack t
  end.

(** Marked entries of the map lie at [lastAckSent] or at most
    [windowSize] positions after it. *)
Definition Win (w : Z) (b : Z -> bool) (las : Z) : Prop :=
  forall k, b k = true -> exists j, 0 <= j <= w /\ k = (las + j) mod (2 * w + 1).

Definition WInv (w : Z) (st : Server.srv) : Prop :=
  0 <= Server.s_lastAckSent st < 2 * w + 1 /\
  Server.s_largestAccFrame st = (Server.s_lastAckSent st + w) mod (2 * w + 1) /\
  Win w (Server.s_buf st) (Server.s_lastAckSent st).

Lemma count_store_app : forall a b, count_store (a ++ b) = (count_store a + count_store b)%nat.
Proof.
  induction a as [|e a IH]; intros b; [reflexivity|].
  destruct e; simpl; rewrite IH; reflexivity.
Qed.

Lemma count_ack_app : forall a b, count_ack (a ++ b) = (count_ack a + count_ack b)%nat.
Proof.
  induction a as [|e a IH]; intros b; [reflexivity|].
  destruct e; simpl; rewrite IH; reflexivity.
Qed.

Lemma fold_shape : forall w fuel b las laf tr b' las' laf' tr',
  Server.fold w fuel b las laf tr = Ok (b', las', laf', tr') ->
  exists new, tr' = new ++ tr /\ count_store new = O /\ count_ack new = O.
Proof.
  intros w fuel. induction fuel as [|f IH]; intros b las laf tr b' las' laf' tr' H;
    simpl in H; [discriminate|].
  destruct (Server.srd w b (Z.rem (las + 1) (Server.seqRange w))) as [x|e]; simpl in H;
    [|discriminate].
  destruct x.
  - destruct (Server.swr w b las false) as [b1|e]; simpl in H; [|discriminate].
    destruct (IH _ _ _ _ _ _ _ _ H) as (new & -> & H1 & H2).
    exists (new ++ [Server.SAdv (Z.rem (las + 1) (Server.seqRange w))]).
    rewrite <- app_assoc. split; [reflexivity|].
    rewrite count_store_app, count_ack_app, H1, H2. split; reflexivity.
  - inversion H; subst. exists []. split; [reflexivity|split; reflexivity].
Qed.

Lemma receive_shape : forall w st seq tr st' tr',
  Server.receive w st seq tr = Ok (st', tr') ->
  exists new, tr' = new ++ tr /\ count_ack new = 1%nat /\
    Server.s_msgToAck st' = Server.s_msgToAck st + Z.of_nat (count_store new) /\
    (count_store new <= 1)%nat.
Proof.
  intros w st seq tr st' tr' H. unfold Server.receive in H.
  remember (Server.fold_fuel w) as fu eqn:Efu.
  destruct (Server.offset_of w (Server.s_largestAccFrame st) seq) as [o|]; [|discriminate].
  destruct (0 <? o) eqn:Eo.
  - destruct (Server.swr w (Server.s_buf st) seq true) as [b1|e]; simpl in H; [|discriminate].
    destruct (Server.fold w fu b1 (Server.s_lastAckSent st) (Server.s_largestAccFrame st)
                (Server.SStore seq :: tr)) as [[[[b2 l2] f2] t2]|e] eqn:Ef;
      simpl in H; [|discriminate].
    inversion H; subst; clear H.
    destruct (fold_shape _ _ _ _ _ _ _ _ _ _ Ef) as (new & -> & H1 & H2).
    exists (Server.SAck (Z.rem (l2 + 1) (Server.seqRange w)) :: new ++ [Server.SStore seq]).
    split; [simpl; rewrite <- app_assoc; reflexivity|].
    cbn [count_ack count_store Server.s_msgToAck].
    rewrite count_store_app, count_ack_app, H1, H2. simpl. split; [reflexivity|]. split; lia.
  - simpl in H.
    destruct (Server.fold w fu (Server.s_buf st) (Server.s_lastAckSent st)
                (Server.s_largestAccFrame st) tr) as [[[[b2 l2] f2] t2]|e] eqn:Ef;
      simpl in H; [|discriminate].
    inversion H; subst; clear H.
    destruct (fold_shape _ _ _ _ _ _ _ _ _ _ Ef) as (new & -> & H1 & H2).
    exists (Server.SAck (Z.rem (l2 + 1) (Server.seqRange w)) :: new).
    split; [reflexivity|]. cbn [count_ack count_store Server.s_msgToAck].
    rewrite H1, H2. split; [reflexivity|]. split; lia.
Qed.

Lemma srun_shape : forall w max frames st tr st' tr',
  Server.srun w max st frames tr = Ok (st', tr') ->
  exists new, tr' = new ++ tr /\
    Server.s_msgToAck st' = Server.s_msgToAck st + Z.of_nat (count_store new) /\
    (count_ack new <= length frames)%nat /\
    (Server.s_msgToAck st' < max -> count_ack new = length frames) /\
    (Server.s_msgToAck st <= max -> Server.s_msgToAck st' <= max).
Proof.
  intros w max frames. induction frames as [|f fs IH]; intros st tr st' tr' H; simpl in H.
  - inversion H; subst. exists []. simpl. repeat split; lia.
  - destruct (Server.s_msgToAck st <? max) eqn:Elt.
    + apply Z.ltb_lt in Elt.
      destruct (Server.receive w st f tr) as [[st1 tr1]|e] eqn:Er; simpl in H; [|discriminate].
      destruct (receive_shape _ _ _ _ _ _ Er) as (n1 & -> & A1 & M1 & C1).
      destruct (IH _ _ _ _ H) as (n2 & -> & M2 & A2 & F2 & B2).
      exists (n2 ++ n1). rewrite <- app_assoc. split; [reflexivity|].
      rewrite count_store_app, count_ack_app, A1. simpl length.
      split; [lia|]. split; [lia|]. split; [intros; rewrite F2 by lia; lia|].
      intros _. apply B2. lia.
    + inversion H; subst. apply Z.ltb_ge in Elt. exists []. simpl.
      repeat split; try lia.
Qed.

(** X10. [msgToAck] counts exactly the frames the receiver stored: after
    any run, it equals the number of [buffer[seq] = true] writes, never
    exceeds [max] (for [max >= 0]), and one acknowledgment was sent per
    received frame, for all the frames unless the loop reached [max]. *)
Theorem serverEarlyRetrans_counts : forall w max frames st tr,
  Server.srun w max (Server.sinit w) frames [] = Ok (st, tr) ->
  Server.s_msgToAck st = Z.of_nat (count_store tr) /\
  (0 <= max -> Server.s_msgToAck st <= max) /\
  (count_ack tr <= length frames)%nat /\
  (Server.s_msgToAck st < max -> count_ack tr = length frames).
Proof.
  intros w max frames st tr H.
  destruct (srun_shape _ _ _ _ _ _ _ H) as (new & Htr & M & A & F & B).
  rewrite app_nil_r in Htr. subst new. cbn [Server.sinit Server.s_msgToAck] in M, B.
  split; [lia|]. split; [exact B|]. split; assumption.
Qed.

Lemma serverEarlyRetrans_counts_witness :
  match Server.srun 2 3 (Server.sinit 2) [0; 1; 1; 0; 2] [] with
  | Ok (st, tr) => Server.s_msgToAck st = Z.of_nat (count_store tr) /\
                   Server.s_msgToAck st = 3
  | Fail _ => False
  end.
Proof.
  destruct (Server.srun 2 3 (Server.sinit 2) [0; 1; 1; 0; 2] []) as [[st tr]|e] eqn:E.
  - split; [exact (proj1 (serverEarlyRetrans_counts 2 3 _ st tr E))|].
    vm_compute in E. inversion E. reflexivity.
  - vm_compute in E. discriminate E.
Defined.

(** The offset computed for the frame [k] positions after [lastAckSent],
    when [largestAccFrame] is [windowSize] positions after it. *)
Lemma offset_val : forall w las k, 0 < w -> 0 <= las < 2 * w + 1 -> 0 <= k < 2 * w + 1 ->
  w - Z.rem (Server.seqRange w + (las + w) mod (2 * w + 1) - (las + k) mod (2 * w + 1))
            (Server.seqRange w) =
  if k <=? w then k else k - (2 * w + 1).
Proof.
  intros w las k Hw Hl Hk. rewrite seqRange_eq.
  set (S := 2 * w + 1) in *.
  assert (HS : 0 < S) by (unfold S; lia).
  assert (E1 : (las + w) mod S = las + w - S * ((las + w) / S)) by (apply Z.mod_eq; lia).
  assert (E2 : (las + k) mod S = las + k - S * ((las + k) / S)) by (apply Z.mod_eq; lia).
  pose proof (Z.mod_pos_bound (las + w) S HS).
  pose proof (Z.mod_pos_bound (las + k) S HS).
  rewrite Z.rem_mod_nonneg by lia.
  replace (S + (las + w) mod S - (las + k) mod S)
    with ((w - k) + (1 + (las + k) / S - (las + w) / S) * S) by (rewrite E1, E2; ring).
  rewrite Z_mod_plus_full.
  destruct (Z.leb_spec k w).
  - rewrite Z.mod_small by lia. lia.
  - replace (w - k) with ((w - k + S) + (-1) * S) by ring.
    rewrite Z_mod_plus_full, Z.mod_small by (unfold S in *; lia). unfold S. lia.
Qed.

Lemma mod_shift : forall w a j, 0 < w ->
  ((a + 1) mod (2 * w + 1) + j) mod (2 * w + 1) = (a + (j + 1)) mod (2 * w + 1).
Proof.
  intros w a j Hw. rewrite Z.add_mod_idemp_l by lia. f_equal. ring.
Qed.

Lemma fold_window : forall w, 0 < w -> forall fuel b las laf tr b' las' laf' tr',
  Server.fold w fuel b las laf tr = Ok (b', las', laf', tr') ->
  0 <= las < 2 * w + 1 -> laf = (las + w) mod (2 * w + 1) -> Win w b las ->
  0 <= las' < 2 * w + 1 /\ laf' = (las' + w) mod (2 * w + 1) /\ Win w b' las'.
Proof.
  intros w Hw fuel. induction fuel as [|f IH]; intros b las laf tr b' las' laf' tr' H Hl Hf Hb;
    cbn [Server.fold] in H; [discriminate|].
  rewrite seqRange_eq in H.
  assert (Hr : Z.rem (las + 1) (2 * w + 1) = (las + 1) mod (2 * w + 1))
    by (apply Z.rem_mod_nonneg; lia).
  pose proof (Z.mod_pos_bound (las + 1) (2 * w + 1) ltac:(lia)).
  rewrite Hr, srd_in in H by (rewrite seqRange_eq; lia). cbn [bind] in H.
  destruct (b ((las + 1) mod (2 * w + 1))) eqn:Eb.
  - rewrite swr_in in H by (rewrite seqRange_eq; lia). cbn [bind] in H.
    pose proof (Z.mod_pos_bound (las + w) (2 * w + 1) ltac:(lia)).
    assert (Hr2 : Z.rem (laf + 1) (2 * w + 1) = (laf + 1) mod (2 * w + 1))
      by (apply Z.rem_mod_nonneg; lia).
    rewrite Hr2 in H.
    eapply IH; [exact H|lia| |].
    + rewrite Hf, Z.add_mod_idemp_l by lia. rewrite Z.add_mod_idemp_l by lia.
      f_equal. ring.
    + intros k Hk. unfold Server.upd in Hk.
      destruct (Z.eqb_spec k las) as [|Hne]; [discriminate|].
      destruct (Hb k Hk) as (j & Hj & ->).
      destruct (Z.eqb_spec j 0) as [->|Hj0].
      * exfalso. apply Hne. rewrite Z.add_0_r. apply Z.mod_small. lia.
      * exists (j - 1). split; [lia|]. rewrite mod_shift by lia. f_equal. ring.
  - inversion H; subst. auto.
Qed.

Lemma swr_ok : forall w b i v b', Server.swr w b i v = Ok b' ->
  0 <= i < Server.seqRange w /\ b' = Server.upd b i v.
Proof.
  intros w b i v b' H. unfold Server.swr in H.
  destruct ((0 <=? i) && (i <? Server.seqRange w)) eqn:E; [|discriminate].
  apply andb_true_iff in E. inversion H. split; [lia|reflexivity].
Qed.

Lemma receive_window : forall w st seq tr st' tr', 0 < w -> WInv w st ->
  Server.receive w st seq tr = Ok (st', tr') -> WInv w st'.
Proof.
  intros w st seq tr st' tr' Hw (Hl & Hf & Hb) H. unfold Server.receive in H.
  remember (Server.fold_fuel w) as fu eqn:Efu.
  destruct (Server.offset_of w (Server.s_largestAccFrame st) seq) as [o|] eqn:Eo;
    [|discriminate].
  destruct (0 <? o) eqn:Elt.
  - destruct (Server.swr w (Server.s_buf st) seq true) as [b1|e] eqn:Es; simpl in H;
      [|discriminate].
    destruct (Server.fold w fu b1 (Server.s_lastAckSent st) (Server.s_largestAccFrame st)
                (Server.SStore seq :: tr)) as [[[[b2 l2] f2] t2]|e] eqn:Ef;
      simpl in H; [|discriminate].
    inversion H; subst; clear H.
    apply swr_ok in Es. destruct Es as [Hs ->]. rewrite seqRange_eq in Hs.
    assert (Hb1 : Win w (Server.upd (Server.s_buf st) seq true) (Server.s_lastAckSent st)).
    2: { destruct (fold_window w Hw _ _ _ _ _ _ _ _ _ Ef Hl Hf Hb1) as (A & B & C).
         unfold WInv; auto. }
    intros k Hk. unfold Server.upd in Hk.
    destruct (Z.eqb_spec k seq) as [Hks|Hne].
    2: { apply Hb. exact Hk. }
    subst k.
    set (las := Server.s_lastAckSent st) in *.
    set (j := (seq - las) mod (2 * w + 1)).
    pose proof (Z.mod_pos_bound (seq - las) (2 * w + 1) ltac:(lia)).
    assert (Hseq : seq = (las + j) mod (2 * w + 1)).
    { unfold j. rewrite Z.add_mod_idemp_r by lia.
      replace (las + (seq - las)) with seq by ring. symmetry. apply Z.mod_small. lia. }
    unfold Server.offset_of in Eo.
    destruct (in_int _); [|discriminate]. inversion Eo as [Eo'].
    rewrite Hf in Eo'. rewrite Hseq in Eo'.
    rewrite offset_val in Eo' by lia. apply Z.ltb_lt in Elt.
    exists j. split; [|exact Hseq].
    destruct (Z.leb_spec j w); [lia|]. lia.
  - simpl in H.
    destruct (Server.fold w fu (Server.s_buf st) (Server.s_lastAckSent st)
                (Server.s_largestAccFrame st) tr) as [[[[b2 l2] f2] t2]|e] eqn:Ef;
      simpl in H; [|discriminate].
    inversion H; subst; clear H.
    destruct (fold_window w Hw _ _ _ _ _ _ _ _ _ Ef Hl Hf Hb) as (A & B & C).
    unfold WInv; auto.
Qed.

Lemma srun_window : forall w max frames st tr st' tr', 0 < w -> WInv w st ->
  Server.srun w max st frames tr = Ok (st', tr') -> WInv w st'.
Proof.
  intros w max frames. induction frames as [|f fs IH]; intros st tr st' tr' Hw Hi H;
    simpl in H.
  - inversion H; subst; exact Hi.
  - destruct (Server.s_msgToAck st <? max).
    + destruct (Server.receive w st f tr) as [[st1 tr1]|e] eqn:Er; simpl in H; [|discriminate].
      eapply IH; [exact Hw| |exact H]. eapply receive_window; eassumption.
    + inversion H; subst; exact Hi.
Qed.

Lemma sinit_window : forall w, 0 < w -> WInv w (Server.sinit w).
Proof.
  intros w Hw. unfold WInv, Server.sinit. cbn [Server.s_lastAckSent
    Server.s_largestAccFrame Server.s_buf]. rewrite seqRange_eq.
  split; [lia|]. split; [|intros k Hk; discriminate].
  replace (2 * w + 1 - 1 + w) with ((w - 1) + 1 * (2 * w + 1)) by ring.
  rewrite Z_mod_plus_full, Z.mod_small by lia. ring.
Qed.

Lemma reachable_window : forall w max st tr, 0 < w -> Server.reachable w max st tr ->
  WInv w st.
Proof.
  intros w max st tr Hw [frames H]. eapply srun_window; [exact Hw|apply sinit_window, Hw|exact H].
Qed.

Lemma offset_some : forall w laf seq, 0 < w -> 4 * w + 2 <= INT_MAX ->
  0 <= laf < 2 * w + 1 -> 0 <= seq < 2 * w + 1 ->
  Server.offset_of w laf seq =
    Some (w - Z.rem (Server.seqRange w + laf - seq) (Server.seqRange w)).
Proof.
  intros w laf seq Hw Hm Hl Hs. unfold Server.offset_of, in_int.
  assert (E1 : INT_MAX = 2147483647) by reflexivity.
  assert (E2 : INT_MIN = -2147483648) by reflexivity.
  rewrite seqRange_eq.
  replace ((INT_MIN <=? 2 * w + 1 + laf - seq) && (2 * w + 1 + laf - seq <=? INT_MAX))
    with true by (symmetry; apply andb_true_iff; split; apply Z.leb_le; lia).
  reflexivity.
Qed.

Lemma offset_at : forall w st k, 0 < w -> 4 * w + 2 <= INT_MAX -> WInv w st ->
  0 <= k < 2 * w + 1 ->
  Server.offset_of w (Server.s_largestAccFrame st)
    ((Server.s_lastAckSent st + k) mod (2 * w + 1)) =
  Some (if k <=? w then k else k - (2 * w + 1)).
Proof.
  intros w st k Hw Hm (Hl & Hf & _) Hk.
  pose proof (Z.mod_pos_bound (Server.s_lastAckSent st + w) (2 * w + 1) ltac:(lia)).
  pose proof (Z.mod_pos_bound (Server.s_lastAckSent st + k) (2 * w + 1) ltac:(lia)).
  rewrite offset_some by (try rewrite Hf; lia).
  rewrite Hf, offset_val by lia. reflexivity.
Qed.

(** X11. [largestAccFrame] stays exactly [windowSize] positions ahead of
    [lastAckSent] in the sequence-number ring: in every reachable state,
    [largestAccFrame = (lastAckSent + windowSize) mod (2 * windowSize + 1)]. *)
Theorem serverEarlyRetrans_laf_ahead : forall w max st tr, 0 < w ->
  Server.reachable w max st tr ->
  Server.s_largestAccFrame st = (Server.s_lastAckSent st + w) mod (2 * w + 1).
Proof.
  intros w max st tr Hw Hr. exact (proj1 (proj2 (reachable_window w max st tr Hw Hr))).
Qed.

Lemma serverEarlyRetrans_laf_ahead_witness :
  match Server.srun 2 5 (Server.sinit 2) [0; 2; 1] [] with
  | Ok (st, tr) =>
      Server.s_largestAccFrame st = (Server.s_lastAckSent st + 2) mod (2 * 2 + 1)
  | Fail _ => False
  end.
Proof.
  destruct (Server.srun 2 5 (Server.sinit 2) [0; 2; 1] []) as [[st tr]|e] eqn:E.
  - exact (serverEarlyRetrans_laf_ahead 2 5 st tr ltac:(lia) (ex_intro _ _ E)).
  - vm_compute in E. discriminate E.
Defined.

(** X12. The occupancy map of [serverEarlyRetrans] only ever marks
    [lastAckSent] itself or one of the [windowSize] sequence numbers after
    it: in every reachable state, [buffer[k] == true] implies [k =
    (lastAckSent + j) mod (2 * windowSize + 1)] for some [0 <= j <=
    windowSize]. *)
Theorem serverEarlyRetrans_map_window : forall w max st tr k, 0 < w ->
  Server.reachable w max st tr -> Server.s_buf st k = true ->
  exists j, 0 <= j <= w /\ k = (Server.s_lastAckSent st + j) mod (2 * w + 1).
Proof.
  intros w max st tr k Hw Hr Hk.
  destruct (reachable_window w max st tr Hw Hr) as (_ & _ & Hb). exact (Hb k Hk).
Qed.

Lemma serverEarlyRetrans_map_window_witness :
  match Server.srun 2 5 (Server.sinit 2) [0; 2] [] with
  | Ok (st, tr) => Server.s_buf st 2 = true /\
      exists j, 0 <= j <= 2 /\ 2 = (Server.s_lastAckSent st + j) mod (2 * 2 + 1)
  | Fail _ => False
  end.
Proof.
  destruct (Server.srun 2 5 (Server.sinit 2) [0; 2] []) as [[st tr]|e] eqn:E.
  - assert (Hk : Server.s_buf st 2 = true) by (vm_compute in E; inversion E; reflexivity).
    split; [exact Hk|].
    exact (serverEarlyRetrans_map_window 2 5 st tr 2 ltac:(lia) (ex_intro _ _ E) Hk).
  - vm_compute in E. discriminate E.
Defined.

(** X13. The frame [k] positions after [lastAckSent] (for [k] in the ring)
    gets offset [k] when [k <= windowSize] and [k - (2 * windowSize + 1)]
    otherwise, so [serverEarlyRetrans] accepts exactly the
    [windowSize] sequence numbers following [lastAckSent]; a repeat of
    [lastAckSent] has offset 0. *)
Theorem serverEarlyRetrans_accept_window : forall w max st tr k, 0 < w ->
  4 * w + 2 <= INT_MAX -> Server.reachable w max st tr -> 0 <= k < 2 * w + 1 ->
  Server.offset_of w (Server.s_largestAccFrame st)
    ((Server.s_lastAckSent st + k) mod (2 * w + 1)) =
  Some (if k <=? w then k else k - (2 * w + 1)).
Proof.
  intros w max st tr k Hw Hm Hr Hk.
  exact (offset_at w st k Hw Hm (reachable_window w max st tr Hw Hr) Hk).
Qed.

Lemma serverEarlyRetrans_accept_window_witness :
  match Server.srun 2 5 (Server.sinit 2) [0] [] with
  | Ok (st, tr) =>
      Server.offset_of 2 (Server.s_largestAccFrame st)
        ((Server.s_lastAckSent st + 3) mod (2 * 2 + 1)) = Some (-2)
  | Fail _ => False
  end.
Proof.
  destruct (Server.srun 2 5 (Server.sinit 2) [0] []) as [[st tr]|e] eqn:E.
  - exact (serverEarlyRetrans_accept_window 2 5 st tr 3 ltac:(lia)
             ltac:(vm_compute; discriminate) (ex_intro _ _ E) ltac:(lia)).
  - vm_compute in E. discriminate E.
Defined.

(** X14. A second copy of a frame that is already buffered out of order
    (marked, but not yet folded into [lastAckSent]) leaves the map, both
    cursors and the acknowledgment unchanged, yet it ends the [do] loop
    and counts toward the [max] messages as if it were new. *)
Theorem serverEarlyRetrans_dup_buffered : forall w max st tr k, 0 < w ->
  4 * w + 2 <= INT_MAX -> Server.reachable w max st tr -> 1 <= k <= w ->
  let seq := (Server.s_lastAckSent st + k) mod (2 * w + 1) in
  Server.s_buf st seq = true ->
  exists st',
    Server.receive w st seq tr =
      Ok (st', Server.SAck ((Server.s_lastAckSent st + 1) mod (2 * w + 1)) ::
               Server.SStore seq :: tr) /\
    (forall j, Server.s_buf st' j = Server.s_buf st j) /\
    Server.s_lastAckSent st' = Server.s_lastAckSent st /\
    Server.s_largestAccFrame st' = Server.s_largestAccFrame st /\
    Server.s_msgToAck st' = Server.s_msgToAck st + 1.
Proof.
  intros w max st tr k Hw Hm Hr Hk seq Hs.
  pose proof (reachable_window w max st tr Hw Hr) as Hwi.
  destruct (reachable_inv w max st tr Hw Hr) as (Hl & _ & Hn & _).
  rewrite seqRange_eq in Hl.
  pose proof (Z.mod_pos_bound (Server.s_lastAckSent st + k) (2 * w + 1) ltac:(lia)).
  exists (Server.mkSrv (Server.upd (Server.s_buf st) seq true) (Server.s_lastAckSent st)
            (Server.s_largestAccFrame st) (Server.s_msgToAck st + 1)).
  unfold Server.receive.
  pose proof (offset_at w st k Hw Hm Hwi ltac:(lia)) as Eo. fold seq in Eo. rewrite Eo.
  replace (k <=? w) with true by (symmetry; apply Z.leb_le; lia).
  replace (0 <? k) with true by (symmetry; apply Z.ltb_lt; lia).
  rewrite swr_in by (rewrite seqRange_eq; unfold seq; lia). cbn [bind].
  assert (Hr1 : Z.rem (Server.s_lastAckSent st + 1) (Server.seqRange w) =
                (Server.s_lastAckSent st + 1) mod (2 * w + 1))
    by (rewrite seqRange_eq; apply Z.rem_mod_nonneg; lia).
  rewrite Hr1 in Hn.
  assert (Hne : (Server.s_lastAckSent st + 1) mod (2 * w + 1) <> seq)
    by (intros E; rewrite E in Hn; congruence).
  assert (Hup : forall j, Server.upd (Server.s_buf st) seq true j = Server.s_buf st j).
  { intros j. unfold Server.upd. destruct (Z.eqb_spec j seq) as [->|]; auto. }
  unfold Server.fold_fuel.
  rewrite fold_stop.
  2: { rewrite Hr1. pose proof (Z.mod_pos_bound (Server.s_lastAckSent st + 1) (2 * w + 1)).
       rewrite seqRange_eq. lia. }
  2: { rewrite Hr1, Hup. exact Hn. }
  cbn [bind]. rewrite Hr1.
  split; [reflexivity|]. split; [exact Hup|]. auto.
Qed.

Lemma serverEarlyRetrans_dup_buffered_witness :
  match Server.srun 2 5 (Server.sinit 2) [1] [] with
  | Ok (st, tr) =>
      Server.s_buf st ((Server.s_lastAckSent st + 2) mod (2 * 2 + 1)) = true /\
      exists st',
        Server.receive 2 st ((Server.s_lastAckSent st + 2) mod (2 * 2 + 1)) tr =
          Ok (st', Server.SAck ((Server.s_lastAckSent st + 1) mod (2 * 2 + 1)) ::
                   Server.SStore ((Server.s_lastAckSent st + 2) mod (2 * 2 + 1)) :: tr) /\
        (forall j, Server.s_buf st' j = Server.s_buf st j) /\
        Server.s_lastAckSent st' = Server.s_lastAckSent st /\
        Server.s_largestAccFrame st' = Server.s_largestAccFrame st /\
        Server.s_msgToAck st' = Server.s_msgToAck st + 1
  | Fail _ => False
  end.
Proof.
  destruct (Server.srun 2 5 (Server.sinit 2) [1] []) as [[st tr]|e] eqn:E.
  - assert (Hs : Server.s_buf st ((Server.s_lastAckSent st + 2) mod (2 * 2 + 1)) = true)
      by (vm_compute in E; inversion E; reflexivity).
    split; [exact Hs|].
    exact (serverEarlyRetrans_dup_buffered 2 5 st tr 2 ltac:(lia)
             ltac:(vm_compute; discriminate) (ex_intro _ _ E) ltac:(lia) Hs).
  - vm_compute in E. discriminate E.
Defined.

(** X15. Fed only frames whose sequence field lies in the ring
    [0, 2 * windowSize + 1) (and with [4 * windowSize + 2] within int
    range), [serverEarlyRetrans] runs without undefined behaviour and
    without the fold loop getting stuck, from every reachable state. *)
Theorem serverEarlyRetrans_defined : forall w max st tr frames, 0 < w ->
  4 * w + 2 <= INT_MAX -> Server.reachable w max st tr ->
  Forall (fun f => 0 <= f < 2 * w + 1) frames ->
  exists st' tr', Server.srun w max st frames tr = Ok (st', tr').
Proof.
  intros w max st tr frames Hw Hm Hr Hf.
  pose proof (reachable_inv w max st tr Hw Hr) as Hi. clear Hr.
  revert st tr Hi. induction Hf as [|f fs Hf0 Hfs IH]; intros st tr Hi; simpl.
  - eauto.
  - destruct (Server.s_msgToAck st <? max); [|eauto].
    assert (Hl2 : 0 <= Server.s_largestAccFrame st < 2 * w + 1)
      by (destruct Hi as (_ & H2 & _); rewrite seqRange_eq in H2; exact H2).
    pose proof (offset_some w _ f Hw Hm Hl2 Hf0) as Eo.
    destruct (receive_spec w st tr f _ Hw Hi
                Eo ltac:(intros _; rewrite seqRange_eq; exact Hf0))
      as (b2 & las2 & laf2 & tr2 & Er & Hi2 & _).
    rewrite Er. cbn [bind]. apply IH. exact Hi2.
Qed.

Lemma serverEarlyRetrans_defined_witness :
  exists st' tr', Server.srun 2 5 (Server.sinit 2) [3; 0; 4; 4; 1; 2] [] = Ok (st', tr').
Proof.
  exact (serverEarlyRetrans_defined 2 5 (Server.sinit 2) [] [3; 0; 4; 4; 1; 2] ltac:(lia)
           ltac:(vm_compute; discriminate) (ex_intro _ [] eq_refl)
           ltac:(repeat constructor; lia)).
Defined.
